(** * OPTIMET: the multiple-scattering system assembler and solver facade

    A shallow embedding of [Solver.cpp]: the preconditioned (indirect) and
    direct assembly of the global block system, the source vectors, the
    conversion of a solved vector into scattered and internal coefficients,
    and the facade operations [populate], [solve], [SH] and [update].

    Complex coefficients are kept abstract: the properties established here
    are about which block of the system holds which product, which buffers
    are written and which errors are raised, not about rounding.  Degrees,
    sizes and offsets are natural numbers.  The dense factorization and the
    distributed back end are collaborators: which of the two a call of
    [solveLinearSystem] takes depends on the build and on the run, and is a
    parameter here, as is what either returns. *)

From stdpp Require Import base gmap list strings.
From Stdlib Require Import ZArith Lia.

#[local] Open Scope nat_scope.

(** ** Scalars and dense containers (the parts of Eigen the solver uses) *)

(** [t_complex] with the arithmetic the assembler performs on it. *)
Class Scalar (C : Type) := {
  czero : C;
  cone : C;
  cadd : C -> C -> C;
  cmul : C -> C -> C;
  copp : C -> C;
}.

(** A matrix-valued expression whose shape is known from the context. *)
Definition Coeffs (C : Type) : Type := nat -> nat -> C.

(** A dynamically sized [Matrix<t_complex>]. *)
Record Matrix (C : Type) := {
  mrows : nat;
  mcols : nat;
  mcoeff : nat -> nat -> C;
}.
Arguments mrows {C} _.
Arguments mcols {C} _.
Arguments mcoeff {C} _ _ _.

(** A dynamically sized [Vector<t_complex>]. *)
Record Vector (C : Type) := {
  vsize : nat;
  vcoeff : nat -> C;
}.
Arguments vsize {C} _.
Arguments vcoeff {C} _ _.

(** What a call gives back: a value, a [std::runtime_error] that unwinds to
    the caller, or a failed assertion ([assert], or an [eigen_assert] on the
    bounds of an access or on the sizes of an operation) or a write through
    a raw pointer past the end of the storage. *)
Inductive outcome (A : Type) : Type :=
| Ok (a : A)
| Throw (what : string)
| Abort.
Arguments Ok {A} a.
Arguments Throw {A} what.
Arguments Abort {A}.

Definition obind {A B : Type} (o : outcome A) (k : A -> outcome B) : outcome B :=
  match o with
  | Ok a => k a
  | Throw w => Throw w
  | Abort => Abort
  end.

Notation "x <- o ;; k" := (obind o (fun x => k))
  (at level 100, o at next level, right associativity).

Definition is_Ok {A : Type} (o : outcome A) : bool :=
  match o with Ok _ => true | _ => false end.

(** The value of a call that returned ([d] otherwise). *)
Definition from_Ok {A : Type} (d : A) (o : outcome A) : A :=
  match o with Ok a => a | _ => d end.

(** A [for] loop whose body may fail: the first failure ends the loop. *)
Fixpoint foldM {A B : Type} (f : A -> B -> outcome A) (l : list B) (a : A) : outcome A :=
  match l with
  | [] => Ok a
  | b :: l' => a' <- f a b ;; foldM f l' a'
  end.

Section Dense.
Context {C : Type} `{Scalar C}.

(** Sum of [f 0 .. f (k-1)], accumulated from the left. *)
Fixpoint csum (k : nat) (f : nat -> C) : C :=
  match k with
  | 0 => czero
  | S k' => cadd (csum k' f) (f k')
  end.

Definition identity : Coeffs C := fun i j => if i =? j then cone else czero.

Definition transpose (A : Coeffs C) : Coeffs C := fun i j => A j i.

Definition mopp (A : Coeffs C) : Coeffs C := fun i j => copp (A i j).

(** Product of two [k] by [k] blocks. *)
Definition mmul (k : nat) (A B : Coeffs C) : Coeffs C :=
  fun i j => csum k (fun t => cmul (A i t) (B t j)).

(** Product of a [k] by [k] block and a [k]-vector. *)
Definition mvmul (k : nat) (A : Coeffs C) (v : nat -> C) : nat -> C :=
  fun i => csum k (fun t => cmul (A i t) (v t)).

Definition in_block (x y r c i j : nat) : bool :=
  (x <=? i) && (i <? x + r) && (y <=? j) && (j <? y + c).

Definition in_segment (x r i : nat) : bool := (x <=? i) && (i <? x + r).

(** [M.block(x, y, r, c) = B]: Eigen asserts that the block lies inside
    the matrix. *)
Definition set_block (M : Matrix C) (x y r c : nat) (B : Coeffs C) : outcome (Matrix C) :=
  if (x + r <=? mrows M) && (y + c <=? mcols M)
  then Ok {| mrows := mrows M; mcols := mcols M;
             mcoeff := fun i j => if in_block x y r c i j then B (i - x) (j - y)
                                  else mcoeff M i j |}
  else Abort.

(** The coefficients of [M.block(x, y, _, _)] read as an expression. *)
Definition get_block (M : Matrix C) (x y : nat) : Coeffs C :=
  fun i j => mcoeff M (x + i) (y + j).

(** [v.segment(x, r) = w], and equally a callee writing [r] coefficients
    through [v.data() + x]. *)
Definition set_segment (v : Vector C) (x r : nat) (w : nat -> C) : outcome (Vector C) :=
  if x + r <=? vsize v
  then Ok {| vsize := vsize v;
             vcoeff := fun i => if in_segment x r i then w (i - x) else vcoeff v i |}
  else Abort.

(** [v.segment(x, r)] read as an expression. *)
Definition segment (v : Vector C) (x r : nat) : outcome (nat -> C) :=
  if x + r <=? vsize v then Ok (fun i => vcoeff v (x + i)) else Abort.

(** [Matrix<t_complex>::Zero(r, c)]. *)
Definition Zero (r c : nat) : Matrix C :=
  {| mrows := r; mcols := c; mcoeff := fun _ _ => czero |}.

(** [result.array() *= scattered.array()] on vectors of one size. *)
Definition array_mul (v w : Vector C) : Vector C :=
  {| vsize := vsize v; vcoeff := fun i => cmul (vcoeff v i) (vcoeff w i) |}.

End Dense.

(** ** The data the solver works on *)

(** The value types of the collaborators, which the solver only passes on. *)
Class Types := {
  t_complex : Type;
  t_real : Type;
  Spherical : Type;
  ElectroMagnetic : Type;
  Excitation : Type;
  complex_ops :: Scalar t_complex;
}.

(** Addresses of heap storage: the [sourceCoef] arrays and the [Result]
    objects that the caller owns. *)
Abbreviation loc := positive.

(** [Scatterer.h].  [sourceCoef] is a raw pointer and the class declares no
    copy constructor: copying a scatterer copies the address, and both
    copies then name one array. *)
Module Scatterer.
Record t `{Types} := {
  vR : Spherical;
  elmag : ElectroMagnetic;
  nMax : nat;
  radius : t_real;
  sourceCoef : loc;
}.
End Scatterer.

Record Geometry `{Types} := {
  objects : list Scatterer.t;
  bground : ElectroMagnetic;
}.

Record Result `{Types} := {
  scatter_coef : Vector t_complex;
  internal_coef : Vector t_complex;
}.

(** The storage reached through pointers.  [results] is total: a
    [Result *] handed to the solver is taken to be valid. *)
Record Memory `{Types} := {
  sources : gmap loc (nat -> t_complex);
  results : loc -> Result;
}.

(** Modelled from the spec: [HarmonicsIterator::max_flat], which is not part
    of these sources; the number of (n, m) pairs with 0 <= n <= nMax, that is
    [nMax * (nMax + 2) + 1]. *)
Definition max_flat (nMax : nat) : nat := nMax * (nMax + 2) + 1.

(** Modelled from the spec: the shape of what [Scatterer::getTLocal(omega,
    bground)] returns, which is not part of these sources; the local
    operator of a scatterer is square, with one row for each of the
    [2 * (max_flat(nMax) - 1)] coefficients of a block of the scatterer's own
    degree. *)
Definition TLocal_size `{Types} (sc : Scatterer.t) : nat :=
  2 * (max_flat (Scatterer.nMax sc) - 1).

(** Modelled from the spec: [Geometry::scatterer_size], which is not part of
    these sources; the size [2 * B * K] of the global system for [K]
    scatterers of per-polarization block size [B = max_flat(nMax) - 1], the
    degree being the one the scatterers carry. *)
Definition scatterer_size `{Types} (g : Geometry) : nat :=
  match objects g with
  | [] => 0
  | front :: _ => 2 * (max_flat (Scatterer.nMax front) - 1) * length (objects g)
  end.

(** What the solver consumes from code outside [Solver.cpp]: the excitation,
    the per-scatterer operators, the coupling engine and the dense
    factorization, and the contents of storage that was allocated and not
    yet written. *)
Class Collaborators `{Types} := {
  (* Spherical<double>::operator- *)
  vsub : Spherical -> Spherical -> Spherical;
  (* Excitation::omega, Excitation::waveK *)
  omega : Excitation -> t_real;
  waveK : Excitation -> t_complex;
  (* Excitation::getIncLocal(center, out, nMax): the coefficients written to out *)
  getIncLocal : Excitation -> Spherical -> nat -> nat -> t_complex;
  (* Scatterer::getTLocal(omega, bground) *)
  scatterer_getTLocal : Scatterer.t -> t_real -> ElectroMagnetic -> Coeffs t_complex;
  (* Geometry::getTLocal(omega, i, nMax) *)
  getTLocal : Geometry -> t_real -> nat -> nat -> Coeffs t_complex;
  (* Geometry::getIaux(omega, j, nMax, out): the coefficients written to out *)
  getIaux : Geometry -> t_real -> nat -> nat -> nat -> t_complex;
  (* Geometry::getSourceLocal(i, incWave, nMax, out): reads the source arrays *)
  getSourceLocal : Geometry -> gmap loc (nat -> t_complex) -> nat -> Excitation -> nat ->
                   nat -> t_complex;
  (* what Geometry::setSourcesSingle derives for object j from the
     first-harmonic internal coefficients *)
  sourceCoefficients : Geometry -> Excitation -> Vector t_complex -> nat -> nat ->
                       nat -> t_complex;
  (* Coupling(displacement, waveK, nMax): the members diagonal and offdiagonal *)
  Coupling : Spherical -> t_complex -> nat -> Coeffs t_complex * Coeffs t_complex;
  (* A.colPivHouseholderQr().solve(b): the coefficients of the solution *)
  qr_solve : Matrix t_complex -> Vector t_complex -> nat -> t_complex;
  (* whether solveLinearSystem takes the ScaLAPACK path: in the Belos build
     when the parameter Solver is not eigen, in the MPI build when
     scalapack::global_size() > 1, never in the build without either *)
  scalapack_selected : bool;
  (* scalapack::general_linear_system(A, b) or gmres_linear_system(A, b, ...)
     on the distributed copies: the coefficients of the solution as
     broadcast back, and the info code *)
  scalapack_solve : Matrix t_complex -> Vector t_complex -> (nat -> t_complex) * Z;
  (* the solver-method selector value for the indirect formulation *)
  O3DSolverIndirect : Z;
  (* contents of freshly allocated, unwritten storage *)
  fresh_matrix : nat -> nat -> t_complex;
  fresh_vector : nat -> t_complex;
}.

Section Assembly.
Context `{Collaborators}.

(** [Matrix<t_complex> M(r, c)]: allocated, not initialised. *)
Definition alloc_matrix (r c : nat) : Matrix t_complex :=
  {| mrows := r; mcols := c; mcoeff := fresh_matrix |}.

(** [Vector<t_complex> v(r)]: allocated, not initialised. *)
Definition alloc_vector (r : nat) : Vector t_complex :=
  {| vsize := r; vcoeff := fresh_vector |}.

(** [M.resize(r, c)]: the storage is kept (and read in column-major order
    under the new shape) when the number of coefficients does not change,
    and reallocated otherwise. *)
Definition resize (M : Matrix t_complex) (r c : nat) : Matrix t_complex :=
  if mrows M * mcols M =? r * c
  then {| mrows := r; mcols := c;
          mcoeff := fun i j => let k := i + j * r in
                               mcoeff M (k mod mrows M) (k / mrows M) |}
  else alloc_matrix r c.

Definition vresize (v : Vector t_complex) (r : nat) : Vector t_complex :=
  if vsize v =? r then v else alloc_vector r.

(** Dereferencing an iterator into [objects]. *)
Definition deref (objs : list Scatterer.t) (i : nat) : outcome Scatterer.t :=
  match objs !! i with
  | Some sc => Ok sc
  | None => Abort
  end.

(** The 2 x 2 arrangement of a coupling: the transposed diagonal coupling on
    the two same-polarization quadrants, the transposed off-diagonal
    coupling on the two cross-polarization quadrants. *)
Definition T_AB_coeffs (n : nat) (AB : Coeffs t_complex * Coeffs t_complex) : Coeffs t_complex :=
  fun r c =>
    if r <? n
    then (if c <? n then transpose (fst AB) r c else transpose (snd AB) r (c - n))
    else (if c <? n then transpose (snd AB) (r - n) c else transpose (fst AB) (r - n) (c - n)).

(** The body of the loop over [iteri] in [preconditioned_scattering_matrix],
    for the column block of [iterj] at column offset [y]; the state is the
    matrix and the row offset [x].  [factor] is minus the local operator of
    [scj]: the product [result.block(x, y, 2 * n, 2 * n) *= factor] asserts
    that it has [2 * n] rows. *)
Definition psm_row (n nMax : nat) (objs : list Scatterer.t) (incWave : Excitation)
    (j : nat) (scj : Scatterer.t) (factor : Coeffs t_complex) (y : nat)
    (st : Matrix t_complex * nat) (i : nat) : outcome (Matrix t_complex * nat) :=
  let result := st.1 in
  let x := st.2 in
  r <- (if i =? j
        then set_block result x y (2 * n) (2 * n) identity
        else
          sci <- deref objs i ;;
          let AB := Coupling (vsub (Scatterer.vR sci) (Scatterer.vR scj)) (waveK incWave) nMax in
          r1 <- set_block result x y n n (transpose AB.1) ;;
          r2 <- set_block r1 (x + n) (y + n) n n (transpose AB.1) ;;
          r3 <- set_block r2 x (y + n) n n (transpose AB.2) ;;
          r4 <- set_block r3 (x + n) y n n (transpose AB.2) ;;
          if TLocal_size scj =? 2 * n
          then set_block r4 x y (2 * n) (2 * n) (mmul (2 * n) (get_block r4 x y) factor)
          else Abort) ;;
  Ok (r, x + 2 * n).

(** The body of the loop over [iterj]; the state is the matrix and the
    column offset [y]. *)
Definition psm_column (n nMax : nat) (objs : list Scatterer.t) (bground : ElectroMagnetic)
    (incWave : Excitation) (first end_first : nat)
    (st : Matrix t_complex * nat) (j : nat) : outcome (Matrix t_complex * nat) :=
  let result := st.1 in
  let y := st.2 in
  scj <- deref objs j ;;
  let factor := mopp (scatterer_getTLocal scj (omega incWave) bground) in
  st' <- foldM (psm_row n nMax objs incWave j scj factor y)
               (seq first (end_first - first)) (result, 0) ;;
  Ok (st'.1, y + 2 * n).

(** [preconditioned_scattering_matrix(first, end_first, second, end_second,
    bground, incWave)]; the iterators are positions in [objs]. *)
Definition preconditioned_scattering_matrix_range (objs : list Scatterer.t)
    (first end_first second end_second : nat)
    (bground : ElectroMagnetic) (incWave : Excitation) : outcome (Matrix t_complex) :=
  sc0 <- deref objs first ;;
  let nMax := Scatterer.nMax sc0 in
  let n := max_flat nMax - 1 in
  if (first =? end_first) || (second =? end_second)
  then Ok (Zero (2 * n * (end_first - first)) (2 * n * (end_second - second)))
  else
    st <- foldM (psm_column n nMax objs bground incWave first end_first)
                (seq second (end_second - second))
                (alloc_matrix (2 * n * (end_first - first)) (2 * n * (end_second - second)), 0) ;;
    Ok st.1.

(** [preconditioned_scattering_matrix(objects, bground, incWave)]. *)
Definition preconditioned_scattering_matrix_objects (objs : list Scatterer.t)
    (bground : ElectroMagnetic) (incWave : Excitation) : outcome (Matrix t_complex) :=
  preconditioned_scattering_matrix_range objs 0 (length objs) 0 (length objs) bground incWave.

(** The check that [nMax] is the same across all objects. *)
Definition same_nMax (nMax : nat) (objs : list Scatterer.t) : bool :=
  forallb (fun scatterer => Scatterer.nMax scatterer =? nMax) objs.

Definition harmonics_error : string := "All objects must have same number of harmonics".

(** [preconditioned_scattering_matrix(geometry, incWave)]. *)
Definition preconditioned_scattering_matrix (geometry : Geometry) (incWave : Excitation)
    : outcome (Matrix t_complex) :=
  match objects geometry with
  | [] => Ok (alloc_matrix 0 0)
  | front :: _ =>
      if same_nMax (Scatterer.nMax front) (objects geometry)
      then preconditioned_scattering_matrix_objects (objects geometry) (bground geometry) incWave
      else Throw harmonics_error
  end.

(** [Vector<t_complex>::Zero(r)]. *)
Definition vZero (r : nat) : Vector t_complex :=
  {| vsize := r; vcoeff := fun _ => czero |}.

(** The body of the loop in [source_vector]; the state is the vector and the
    offset [i] of the next scatterer's coefficients. *)
Definition source_vector_step (nMax flatMax : nat) (objs : list Scatterer.t)
    (incWave : Excitation) (st : Vector t_complex * nat) (k : nat)
    : outcome (Vector t_complex * nat) :=
  let result := st.1 in
  let i := st.2 in
  sc <- deref objs k ;;
  r <- set_segment result i (2 * flatMax) (getIncLocal incWave (Scatterer.vR sc) nMax) ;;
  Ok (r, i + 2 * flatMax).

(** [source_vector(first, last, incWave)]; the iterators are positions in
    [objs]. *)
Definition source_vector_range (objs : list Scatterer.t) (first last : nat)
    (incWave : Excitation) : outcome (Vector t_complex) :=
  if first =? last
  then Ok (vZero 0)
  else
    sc0 <- deref objs first ;;
    let nMax := Scatterer.nMax sc0 in
    let flatMax := max_flat nMax - 1 in
    st <- foldM (source_vector_step nMax flatMax objs incWave)
                (seq first (last - first))
                (alloc_vector (2 * flatMax * (last - first)), 0) ;;
    Ok st.1.

(** [source_vector(objects, incWave)]. *)
Definition source_vector_objects (objs : list Scatterer.t) (incWave : Excitation)
    : outcome (Vector t_complex) :=
  source_vector_range objs 0 (length objs) incWave.

(** [Vector<t_complex>(rows, cols)]: a column vector has one column, and
    Eigen asserts that the number of columns asked for is that one. *)
Definition alloc_vector_2 (rows cols : nat) : outcome (Vector t_complex) :=
  if cols =? 1 then Ok (alloc_vector rows) else Abort.

(** [source_vector(geometry, incWave)].  For no object the source returns
    [Vector<t_complex>(0, 0)]. *)
Definition source_vector (geometry : Geometry) (incWave : Excitation)
    : outcome (Vector t_complex) :=
  match objects geometry with
  | [] => alloc_vector_2 0 0
  | front :: _ =>
      if same_nMax (Scatterer.nMax front) (objects geometry)
      then source_vector_objects (objects geometry) incWave
      else Throw harmonics_error
  end.

(** Modelled from the spec: [Geometry::setSourcesSingle], which is not part
    of these sources; second-harmonic source population overwrites the
    source-coefficient buffer of every scatterer with the local sources
    derived from the first-harmonic internal coefficients.  The buffers are
    reached through the [sourceCoef] pointers of the scatterers. *)
Definition setSourcesSingle (geometry : Geometry) (incWave : Excitation)
    (internalCoef_FF : Vector t_complex) (nMax : nat)
    (h : gmap loc (nat -> t_complex)) : gmap loc (nat -> t_complex) :=
  foldl (fun h' jsc =>
           <[Scatterer.sourceCoef jsc.2 :=
               sourceCoefficients geometry incWave internalCoef_FF nMax jsc.1]> h')
        h (imap pair (objects geometry)).

(** [local_source_vector(geometry, incWave, input_coeffs)].  For no object
    the source returns [Vector<t_complex>(0, 0)].  [copy_geometry] is a copy
    of the scatterer records: with the [Scatterer] declared in these sources
    its [sourceCoef] pointers are those of [geometry], so the sources are set
    in the arrays both share. *)
Definition local_source_vector (h : gmap loc (nat -> t_complex)) (geometry : Geometry)
    (incWave : Excitation) (input_coeffs : Vector t_complex)
    : outcome (gmap loc (nat -> t_complex) * Vector t_complex) :=
  match objects geometry with
  | [] => v <- alloc_vector_2 0 0 ;; Ok (h, v)
  | front :: _ =>
      let nMax := Scatterer.nMax front in
      if same_nMax nMax (objects geometry)
      then
        let copy_geometry := geometry in
        let h' := setSourcesSingle copy_geometry incWave input_coeffs nMax h in
        let flatMax := max_flat nMax - 1 in
        r <- foldM (fun result i =>
                      set_segment result (i * 2 * flatMax) (2 * flatMax)
                                  (getSourceLocal copy_geometry h' i incWave nMax))
                   (seq 0 (length (objects copy_geometry)))
                   (alloc_vector (flatMax * 2 * length (objects copy_geometry))) ;;
        Ok (h', r)
      else Throw harmonics_error
  end.

End Assembly.

(** ** The solver facade *)

Module Solver.
Section Facade.
Context `{Collaborators}.

(** The members of [Solver] that the operations use.  [geometry] stands for
    the [Geometry] the solver points to, [result_FF] is the pointer itself
    ([None] for [nullptr]), and [context_is_valid] is what
    [context().is_valid()] answers. *)
Record t := {
  geometry : Geometry;
  incWave : Excitation;
  nMax : nat;
  result_FF : option loc;
  solverMethod : Z;
  context_is_valid : bool;
  S : Matrix t_complex;
  Q : Vector t_complex;
}.

Definition set_system (s : t) (S' : Matrix t_complex) (Q' : Vector t_complex) : t :=
  {| geometry := geometry s; incWave := incWave s; nMax := nMax s;
     result_FF := result_FF s; solverMethod := solverMethod s;
     context_is_valid := context_is_valid s; S := S'; Q := Q' |}.

Definition set_result_FF (s : t) (r : option loc) : t :=
  {| geometry := geometry s; incWave := incWave s; nMax := nMax s;
     result_FF := r; solverMethod := solverMethod s;
     context_is_valid := context_is_valid s; S := S s; Q := Q s |}.

Definition set_sources (m : Memory) (h : gmap loc (nat -> t_complex)) : Memory :=
  {| sources := h; results := results m |}.

(** The four corner assignments that build [T_AB] from a coupling. *)
Definition assign_T_AB (flatMax : nat) (AB : Coeffs t_complex * Coeffs t_complex)
    (T_AB : Matrix t_complex) : outcome (Matrix t_complex) :=
  t1 <- set_block T_AB 0 0 flatMax flatMax (transpose AB.1) ;;
  t2 <- set_block t1 (mrows t1 - flatMax) (mcols t1 - flatMax) flatMax flatMax
                  (transpose AB.1) ;;
  t3 <- set_block t2 0 (mcols t2 - flatMax) flatMax flatMax (transpose AB.2) ;;
  set_block t3 (mrows t3 - flatMax) 0 flatMax flatMax (transpose AB.2).

(** The body of the loop over [j] in [populateDirect], for row block [i];
    the state is [S] and the scratch matrix [T_AB]. *)
Definition populateDirect_block (s : t) (flatMax : nat) (T : Coeffs t_complex) (i : nat)
    (st : Matrix t_complex * Matrix t_complex) (j : nat)
    : outcome (Matrix t_complex * Matrix t_complex) :=
  let S0 := st.1 in
  let T_AB := st.2 in
  if i =? j
  then
    S1 <- set_block S0 (i * 2 * flatMax) (i * 2 * flatMax) (2 * flatMax) (2 * flatMax)
                    identity ;;
    Ok (S1, T_AB)
  else
    sci <- deref (objects (geometry s)) i ;;
    scj <- deref (objects (geometry s)) j ;;
    let AB := Coupling (vsub (Scatterer.vR sci) (Scatterer.vR scj))
                       (waveK (incWave s)) (nMax s) in
    T_AB' <- assign_T_AB flatMax AB T_AB ;;
    S1 <- set_block S0 (i * 2 * flatMax) (j * 2 * flatMax) (2 * flatMax) (2 * flatMax)
                    (mmul (2 * flatMax) (mopp T) (mcoeff T_AB')) ;;
    Ok (S1, T_AB').

(** The local incoming coefficients of object [i]: the local sources in the
    second-harmonic case, the incoming excitation otherwise. *)
Definition populateDirect_Q_local (h : gmap loc (nat -> t_complex)) (s : t) (i : nat)
    : outcome (nat -> t_complex) :=
  match result_FF s with
  | Some _ => Ok (getSourceLocal (geometry s) h i (incWave s) (nMax s))
  | None =>
      sci <- deref (objects (geometry s)) i ;;
      Ok (getIncLocal (incWave s) (Scatterer.vR sci) (nMax s))
  end.

(** The body of the loop over [i] in [populateDirect]; the state is [S],
    [Q] and the scratch matrix [T_AB]. *)
Definition populateDirect_row (h : gmap loc (nat -> t_complex)) (s : t) (flatMax : nat)
    (st : Matrix t_complex * Vector t_complex * Matrix t_complex) (i : nat)
    : outcome (Matrix t_complex * Vector t_complex * Matrix t_complex) :=
  let S0 := st.1.1 in
  let Q0 := st.1.2 in
  let T_AB := st.2 in
  let T := getTLocal (geometry s) (omega (incWave s)) i (nMax s) in
  Q_local <- populateDirect_Q_local h s i ;;
  Q1 <- set_segment Q0 (i * 2 * flatMax) (2 * flatMax) (mvmul (2 * flatMax) T Q_local) ;;
  st' <- foldM (populateDirect_block s flatMax T i)
               (seq 0 (length (objects (geometry s)))) (S0, T_AB) ;;
  Ok (st'.1, Q1, st'.2).

(** [Solver::populateDirect].  In the second-harmonic case the sources are
    set on the geometry the solver points to. *)
Definition populateDirect (m : Memory) (s : t) : outcome (Memory * t) :=
  let flatMax := max_flat (nMax s) - 1 in
  let T_AB := alloc_matrix (2 * flatMax) (2 * flatMax) in
  let h := match result_FF s with
           | Some r => setSourcesSingle (geometry s) (incWave s)
                                        (internal_coef (results m r)) (nMax s) (sources m)
           | None => sources m
           end in
  st <- foldM (populateDirect_row h s flatMax)
              (seq 0 (length (objects (geometry s)))) (S s, Q s, T_AB) ;;
  Ok (match result_FF s with Some _ => set_sources m h | None => m end,
      set_system s st.1.1 st.1.2).

(** [Solver::populateIndirect]. *)
Definition populateIndirect (m : Memory) (s : t) : outcome (Memory * t) :=
  match result_FF s with
  | Some r =>
      hq <- local_source_vector (sources m) (geometry s) (incWave s)
                                (internal_coef (results m r)) ;;
      S' <- preconditioned_scattering_matrix (geometry s) (incWave s) ;;
      Ok (set_sources m hq.1, set_system s S' hq.2)
  | None =>
      Q' <- source_vector (geometry s) (incWave s) ;;
      S' <- preconditioned_scattering_matrix (geometry s) (incWave s) ;;
      Ok (m, set_system s S' Q')
  end.

(** [Solver::populate]. *)
Definition populate (m : Memory) (s : t) : outcome (Memory * t) :=
  let N := scatterer_size (geometry s) in
  let s' := set_system s (resize (S s) N N) (vresize (Q s) N) in
  if (solverMethod s =? O3DSolverIndirect)%Z
  then populateIndirect m s'
  else populateDirect m s'.

(** The constructor. *)
Definition make (m : Memory) (geometry : Geometry) (incWave : Excitation) (method : Z)
    (nMax : nat) (context_is_valid : bool) : outcome (Memory * t) :=
  populate m {| geometry := geometry; incWave := incWave; nMax := nMax;
                result_FF := None; solverMethod := method;
                context_is_valid := context_is_valid;
                S := alloc_matrix 0 0; Q := alloc_vector 0 |}.

Definition linear_system_error : string :=
  "Error encountered while solving the linear system".

(** [Solver::solveLinearSystemScalapack] with the free function
    [solveLinearSystem] it calls: the code asserts that [A] and [b] have as
    many rows, and the back end's info code other than zero is reported to
    the caller.  The solution has the size of [b]. *)
Definition solveLinearSystemScalapack (A : Matrix t_complex) (b : Vector t_complex)
    : outcome (Vector t_complex) :=
  if mrows A =? vsize b
  then
    let result := scalapack_solve A b in
    if (result.2 =? 0)%Z
    then Ok {| vsize := vsize b; vcoeff := result.1 |}
    else Throw linear_system_error
  else Abort.

(** [Solver::solveLinearSystem]: the ScaLAPACK path when the build and the
    run select it, and otherwise the column-pivoting Householder QR solve,
    whose result has one coefficient per column of [A] and which asserts
    that [A] and [b] have as many rows. *)
Definition solveLinearSystem (A : Matrix t_complex) (b : Vector t_complex)
    : outcome (Vector t_complex) :=
  if scalapack_selected
  then solveLinearSystemScalapack A b
  else
    if mrows A =? vsize b
    then Ok {| vsize := mcols A; vcoeff := qr_solve A b |}
    else Abort.

(** [Solver::convertIndirect]. *)
Definition convertIndirect (s : t) (scattered : Vector t_complex)
    : outcome (Vector t_complex) :=
  let N := 2 * (max_flat (nMax s) - 1) in
  foldM (fun result i =>
           seg <- segment scattered (i * N) N ;;
           set_segment result (i * N) N
                       (mvmul N (getTLocal (geometry s) (omega (incWave s)) i (nMax s)) seg))
        (seq 0 (length (objects (geometry s))))
        (alloc_vector (N * length (objects (geometry s)))).

(** [Solver::solveInternal]. *)
Definition solveInternal (s : t) (scattered : Vector t_complex)
    : outcome (Vector t_complex) :=
  let N := 2 * (max_flat (nMax s) - 1) in
  result <- foldM (fun result j =>
                     set_segment result (j * N) N
                                 (getIaux (geometry s) (omega (incWave s)) j (nMax s)))
                  (seq 0 (length (objects (geometry s))))
                  (alloc_vector (vsize scattered)) ;;
  Ok (array_mul result scattered).

(** [Solver::solve(X_sca_, X_int_)]: the scattered and the internal
    coefficients. *)
Definition solve (s : t) : outcome (Vector t_complex * Vector t_complex) :=
  if negb (context_is_valid s)
  then Throw "Scalapack context is invalid"
  else
    X <- solveLinearSystem (S s) (Q s) ;;
    X_sca <- (if (solverMethod s =? O3DSolverIndirect)%Z
              then convertIndirect s X
              else Ok X) ;;
    X_int <- solveInternal s X_sca ;;
    Ok (X_sca, X_int).

(** [Solver::SH]. *)
Definition SH (m : Memory) (r : option loc) (s : t) : outcome (Memory * t) :=
  if decide (r = result_FF s)
  then Ok (m, s)
  else populate m (set_result_FF s r).

(** [Solver::update]. *)
Definition update (m : Memory) (geometry_ : Geometry) (incWave_ : Excitation) (nMax_ : nat)
    (s : t) : outcome (Memory * t) :=
  populate m {| geometry := geometry_; incWave := incWave_; nMax := nMax_;
                result_FF := None; solverMethod := solverMethod s;
                context_is_valid := context_is_valid s; S := S s; Q := Q s |}.

End Facade.
End Solver.

(** ** What the assembled systems are compared with *)

Section Blocks.
Context `{Collaborators}.

(** The coupling block of the ordered pair ([sci], [scj]) multiplied on the
    right by minus the local T-matrix of [scj]. *)
Definition coupling_times_T (n nMax : nat) (bground : ElectroMagnetic) (incWave : Excitation)
    (sci scj : Scatterer.t) : Coeffs t_complex :=
  mmul (2 * n)
       (T_AB_coeffs n (Coupling (vsub (Scatterer.vR sci) (Scatterer.vR scj))
                                (waveK incWave) nMax))
       (mopp (scatterer_getTLocal scj (omega incWave) bground)).

(** Minus the local T-matrix of [scj] multiplied on the right by the
    coupling block of the ordered pair ([sci], [scj]). *)
Definition T_times_coupling (n nMax : nat) (bground : ElectroMagnetic) (incWave : Excitation)
    (sci scj : Scatterer.t) : Coeffs t_complex :=
  mmul (2 * n)
       (mopp (scatterer_getTLocal scj (omega incWave) bground))
       (T_AB_coeffs n (Coupling (vsub (Scatterer.vR sci) (Scatterer.vR scj))
                                (waveK incWave) nMax)).

End Blocks.

Section DirectBlocks.
Context `{Collaborators}.

(** Minus the local T-matrix of object [i] multiplied on the right by the
    coupling block of the ordered pair ([sci], [scj]): the off-diagonal
    block of the direct formulation. *)
Definition T_times_T_AB (flatMax nMax : nat) (geometry : Geometry) (incWave : Excitation)
    (i : nat) (sci scj : Scatterer.t) : Coeffs t_complex :=
  mmul (2 * flatMax)
       (mopp (getTLocal geometry (omega incWave) i nMax))
       (T_AB_coeffs flatMax (Coupling (vsub (Scatterer.vR sci) (Scatterer.vR scj))
                                      (waveK incWave) nMax)).

End DirectBlocks.

Section Degrees.
Context `{Collaborators}.

(** The degree with which a population treats scatterer [sc]: the one the
    scatterers carry in the indirect formulation, the solver's own in the
    direct one. *)
Definition population_degree (s : Solver.t) (sc : Scatterer.t) : nat :=
  if (Solver.solverMethod s =? O3DSolverIndirect)%Z
  then Scatterer.nMax sc
  else Solver.nMax s.

End Degrees.

Section SourceBlocks.
Context `{Collaborators}.

(** The incoming coefficients of scatterer [i] that a population uses: the
    local sources read from memory [m] in the second-harmonic case, the
    external excitation at the centre of the scatterer otherwise. *)
Definition incoming_block (m : Memory) (s : Solver.t) (i : nat) (sci : Scatterer.t)
    : nat -> t_complex :=
  match Solver.result_FF s with
  | Some _ => getSourceLocal (Solver.geometry s) (sources m) i (Solver.incWave s)
                             (population_degree s sci)
  | None => getIncLocal (Solver.incWave s) (Scatterer.vR sci) (population_degree s sci)
  end.

(** Block [i] of the source vector: the incoming coefficients in the
    indirect formulation, the local T-matrix applied to them in the direct
    one. *)
Definition Q_block (m : Memory) (s : Solver.t) (i : nat) (sci : Scatterer.t)
    : nat -> t_complex :=
  if (Solver.solverMethod s =? O3DSolverIndirect)%Z
  then incoming_block m s i sci
  else mvmul (2 * (max_flat (population_degree s sci) - 1))
             (getTLocal (Solver.geometry s) (omega (Solver.incWave s)) i
                        (population_degree s sci))
             (incoming_block m s i sci).

End SourceBlocks.

(** ** A small concrete configuration

    Integer coefficients, scatterers on a line, a diagonal local T-matrix
    with distinct entries and a coupling with constant coefficients: enough
    to run the assembler on geometries of two spheres. *)

Module Toy.

Definition Z_scalar : Scalar Z :=
  {| czero := 0%Z; cone := 1%Z; cadd := Z.add; cmul := Z.mul; copp := Z.opp |}.

Definition types : Types :=
  {| t_complex := Z; t_real := unit; Spherical := Z; ElectroMagnetic := unit;
     Excitation := unit; complex_ops := Z_scalar |}.

#[local] Existing Instance types.

(** diag(1, 2, 3, ...) *)
Definition T_diag : Coeffs Z := fun i j => if i =? j then Z.of_nat (i + 1) else 0%Z.

Definition read_source (g : Geometry) (h : gmap loc (nat -> Z)) (i t : nat) : Z :=
  match objects g !! i with
  | Some sc => match h !! Scatterer.sourceCoef sc with
               | Some buffer => buffer t
               | None => 0%Z
               end
  | None => 0%Z
  end.

Definition collaborators : Collaborators :=
  {| vsub := Z.sub;
     omega := fun _ => tt;
     waveK := fun _ => 1%Z;
     getIncLocal := fun _ center _ t => (center + Z.of_nat t + 1)%Z;
     scatterer_getTLocal := fun _ _ _ => T_diag;
     getTLocal := fun _ _ _ _ => T_diag;
     getIaux := fun _ _ j _ t => Z.of_nat (j + t + 2);
     getSourceLocal := fun g h i _ _ t => read_source g h i t;
     sourceCoefficients := fun _ _ internal _ j t => (vcoeff internal t + Z.of_nat j)%Z;
     Coupling := fun d _ _ => ((fun _ _ => 1%Z), (fun _ _ => d));
     qr_solve := fun _ b i => vcoeff b i;
     scalapack_selected := false;
     scalapack_solve := fun _ b => (vcoeff b, 0%Z);
     O3DSolverIndirect := 1%Z;
     fresh_matrix := fun _ _ => 0%Z;
     fresh_vector := fun _ => 0%Z |}.

#[local] Existing Instance collaborators.

Definition sphere (center : Z) (nMax : nat) (buffer : loc) : Scatterer.t :=
  {| Scatterer.vR := center; Scatterer.elmag := tt; Scatterer.nMax := nMax;
     Scatterer.radius := tt; Scatterer.sourceCoef := buffer |}.

(** Two spheres of degree 1. *)
Definition two_spheres : Geometry :=
  {| objects := [sphere 0 1 1%positive; sphere 5 1 2%positive]; bground := tt |}.

(** Two spheres whose degrees differ. *)
Definition mixed_spheres : Geometry :=
  {| objects := [sphere 0 1 1%positive; sphere 5 2 2%positive]; bground := tt |}.

Definition no_spheres : Geometry := {| objects := []; bground := tt |}.

Definition first_harmonic : Result :=
  {| scatter_coef := {| vsize := 12; vcoeff := fun t => Z.of_nat t |};
     internal_coef := {| vsize := 12; vcoeff := fun t => (10 * Z.of_nat t)%Z |} |}.

Definition memory : Memory :=
  {| sources := {[ 1%positive := fun _ => 0%Z; 2%positive := fun _ => 0%Z ]};
     results := fun _ => first_harmonic |}.

(** A solver that has not been populated yet. *)
Definition solver (g : Geometry) (method : Z) (nMax : nat) (r : option loc) : Solver.t :=
  {| Solver.geometry := g; Solver.incWave := tt; Solver.nMax := nMax;
     Solver.result_FF := r; Solver.solverMethod := method;
     Solver.context_is_valid := true;
     Solver.S := alloc_matrix 0 0; Solver.Q := alloc_vector 0 |}.

(** The state a call leaves, for a call that returned. *)
Definition returned (o : outcome (Memory * Solver.t)) : Memory * Solver.t :=
  from_Ok (memory, solver no_spheres 0%Z 0 None) o.

(** The indirect system matrix of the two spheres. *)
Definition indirect_matrix : Matrix Z :=
  from_Ok (alloc_matrix 0 0) (preconditioned_scattering_matrix two_spheres tt).

(** A solver of the two spheres that holds a first-harmonic result. *)
Definition second_harmonic_solver (method : Z) : Solver.t :=
  solver two_spheres method 1 (Some 7%positive).

(** What the indirect second-harmonic population of the two spheres leaves. *)
Definition after_SH_population : Memory * Solver.t :=
  returned (Solver.populate memory (second_harmonic_solver 1%Z)).

(** What updating a direct second-harmonic solver to the two spheres leaves. *)
Definition after_update : Memory * Solver.t :=
  returned (Solver.update memory two_spheres tt 1 (second_harmonic_solver 0%Z)).

End Toy.

(** ** Further definitions used to state properties of the code *)

(** Whether a call ended in an exception. *)
Definition throws {A : Type} (o : outcome A) : bool :=
  match o with Throw _ => true | _ => false end.

(** ** The column panels of the distributed assembler

    [preconditioned_scattering_matrix(geometry, incWave, context, blocks)]
    lays the processes out in one row of [size] columns, where [size] is the
    smaller of the size of the context and the number of objects.  The
    process in column [col] assembles the columns of [nloc] consecutive
    objects; when the number of objects is not a multiple of [size], the
    remainder context is made of the first [remainder] of these processes,
    each of which assembles the columns of one more object.  The transfers
    between the contexts belong to the linear algebra back end. *)

Section Distributed.
Context `{Collaborators}.

(** [std::min(context.size(), nobj)]. *)
Definition linear_context_size (context_size nobj : nat) : nat := Nat.min context_size nobj.

(** [nobj / linear_context.size()]. *)
Definition nloc (nobj size : nat) : nat := nobj / size.

(** [nobj % linear_context.size()]. *)
Definition remainder (nobj size : nat) : nat := nobj mod size.

(** The three assertions a process of the linear context makes on its
    range of objects before it assembles its panel. *)
Definition panel_assertions (nobj n size col : nat) : bool :=
  (nloc nobj size * col <? nobj) && (nloc nobj size * (1 + col) <=? nobj)
  && (0 <? nloc nobj size * 2 * n).

(** What the process in column [col] of the linear context assembles in
    [preconditioned_scattering_matrix(geometry, incWave, context, blocks)]:
    nothing for a geometry without objects, for which the function returns
    [Matrix<t_complex>::Zero(0, 0)] at once; otherwise what is assigned to
    [linear_matrix.local().leftCols(nloc * 2 * n)] and then, when there is a
    remainder and the process is in column [col] of the remainder context
    too, what is assigned to [remainder_matrix.local()].  A failed [assert]
    ends the call. *)
Definition distributed_panels (geometry : Geometry) (incWave : Excitation)
    (context_size col : nat)
    : outcome (option (Matrix t_complex * option (Matrix t_complex))) :=
  match objects geometry with
  | [] => Ok None
  | front :: _ =>
      let nobj := length (objects geometry) in
      let size := linear_context_size context_size nobj in
      let nMax := Scatterer.nMax front in
      let n := max_flat nMax - 1 in
      if panel_assertions nobj n size col
      then
        panel <- preconditioned_scattering_matrix_range (objects geometry) 0 nobj
                   (nloc nobj size * col) (nloc nobj size * (1 + col))
                   (bground geometry) incWave ;;
        if (0 <? remainder nobj size) && (col <? remainder nobj size)
        then
          rpanel <- preconditioned_scattering_matrix_range (objects geometry) 0 nobj
                      (nloc nobj size * size + col) (nloc nobj size * size + col + 1)
                      (bground geometry) incWave ;;
          Ok (Some (panel, Some rpanel))
        else Ok (Some (panel, None))
      else Abort
  end.

End Distributed.

(** ** More of the small concrete configuration *)

Module ToyRuns.

#[local] Existing Instance Toy.types.
#[local] Existing Instance Toy.collaborators.

(** Three spheres of degree 1. *)
Definition three_spheres : Geometry :=
  {| objects := [Toy.sphere 0 1 1%positive; Toy.sphere 5 1 2%positive;
                 Toy.sphere 9 1 3%positive];
     bground := tt |}.

(** What populating a first-harmonic solver of the two spheres leaves. *)
Definition after_population (method : Z) : Memory * Solver.t :=
  Toy.returned (Solver.populate Toy.memory (Toy.solver Toy.two_spheres method 1 None)).

(** A vector too short for the two spheres. *)
Definition short_vector : Vector Z := {| vsize := 3; vcoeff := fun _ => 0%Z |}.

End ToyRuns.
(** ** Loops *)

Lemma obind_Ok_inv {A B : Type} (o : outcome A) (k : A -> outcome B) (b : B) :
  obind o k = Ok b -> exists a, o = Ok a /\ k a = Ok b.
Proof. destruct o as [a| |]; simpl; intros E; [eauto | discriminate..]. Qed.

Lemma is_Ok_true {A : Type} (o : outcome A) : is_Ok o = true -> exists a, o = Ok a.
Proof. destruct o as [a| |]; simpl; intros E; [eauto | discriminate..]. Qed.

Lemma is_Ok_from_Ok {A : Type} (d : A) (o : outcome A) : is_Ok o = true -> o = Ok (from_Ok d o).
Proof. destruct o as [a| |]; simpl; intros E; [reflexivity | discriminate..]. Qed.

(** A loop over [start .. start + len - 1] whose every iteration succeeds
    and carries [P] forward succeeds, and [P] holds at the end. *)
Lemma foldM_seq_total {A : Type} (P : nat -> A -> Prop) (f : A -> nat -> outcome A) :
  forall len start a,
    P start a ->
    (forall k a0, start <= k < start + len -> P k a0 ->
                  exists a1, f a0 k = Ok a1 /\ P (k + 1) a1) ->
    exists a', foldM f (seq start len) a = Ok a' /\ P (start + len) a'.
Proof.
  induction len as [|len IH]; intros start a HP Hstep; simpl.
  - exists a. rewrite Nat.add_0_r. auto.
  - destruct (Hstep start a) as (a1 & E1 & HP1); [lia | assumption |].
    rewrite E1. simpl.
    destruct (IH (start + 1) a1) as (a' & E' & HP'); [assumption | |].
    + intros k a0 Hk. apply Hstep. lia.
    + exists a'. replace (Datatypes.S start) with (start + 1) by lia.
      split; [assumption|]. replace (start + Datatypes.S len) with (start + 1 + len) by lia.
      assumption.
Qed.

(** If a loop over [start .. start + len - 1] succeeded, whatever every
    successful iteration carries forward holds at the end. *)
Lemma foldM_seq_inv {A : Type} (P : nat -> A -> Prop) (f : A -> nat -> outcome A) :
  forall len start a a',
    foldM f (seq start len) a = Ok a' ->
    P start a ->
    (forall k a0 a1, start <= k < start + len -> P k a0 -> f a0 k = Ok a1 -> P (k + 1) a1) ->
    P (start + len) a'.
Proof.
  induction len as [|len IH]; intros start a a' E HP Hstep; simpl in E.
  - injection E as <-. rewrite Nat.add_0_r. assumption.
  - apply obind_Ok_inv in E as (a1 & E1 & E2).
    replace (start + Datatypes.S len) with (start + 1 + len) by lia.
    replace (Datatypes.S start) with (start + 1) in E2 by lia.
    apply (IH _ _ _ E2).
    + apply (Hstep start a a1); [lia | assumption..].
    + intros k a0 a2 Hk. apply Hstep. lia.
Qed.

(** ** Dense containers *)

Section DenseFacts.
Context {C : Type} `{Scalar C}.

Lemma csum_ext (k : nat) (f g : nat -> C) :
  (forall t, t < k -> f t = g t) -> csum k f = csum k g.
Proof.
  induction k as [|k IH]; intros E; simpl; [reflexivity|].
  rewrite IH by (intros t Ht; apply E; lia). rewrite (E k) by lia. reflexivity.
Qed.

Lemma in_block_true (x y r c i j : nat) :
  x <= i < x + r -> y <= j < y + c -> in_block x y r c i j = true.
Proof.
  intros Hi Hj. unfold in_block.
  rewrite !andb_true_iff, !Nat.leb_le, !Nat.ltb_lt. lia.
Qed.

Lemma in_block_false (x y r c i j : nat) :
  ~ (x <= i < x + r /\ y <= j < y + c) -> in_block x y r c i j = false.
Proof.
  intros Hn. unfold in_block. apply not_true_iff_false. intros E.
  rewrite !andb_true_iff, !Nat.leb_le, !Nat.ltb_lt in E. lia.
Qed.

Lemma in_segment_true (x r i : nat) : x <= i < x + r -> in_segment x r i = true.
Proof.
  intros Hi. unfold in_segment. rewrite andb_true_iff, Nat.leb_le, Nat.ltb_lt. lia.
Qed.

Lemma in_segment_false (x r i : nat) : ~ (x <= i < x + r) -> in_segment x r i = false.
Proof.
  intros Hn. unfold in_segment. apply not_true_iff_false. intros E.
  rewrite andb_true_iff, Nat.leb_le, Nat.ltb_lt in E. lia.
Qed.

Lemma set_block_fits (M : Matrix C) (x y r c : nat) (B : Coeffs C) :
  x + r <= mrows M -> y + c <= mcols M ->
  set_block M x y r c B =
  Ok {| mrows := mrows M; mcols := mcols M;
        mcoeff := fun i j => if in_block x y r c i j then B (i - x) (j - y)
                             else mcoeff M i j |}.
Proof.
  intros Hr Hc. unfold set_block.
  apply Nat.leb_le in Hr. apply Nat.leb_le in Hc. rewrite Hr, Hc. reflexivity.
Qed.

Lemma set_block_Ok_inv (M M' : Matrix C) (x y r c : nat) (B : Coeffs C) :
  set_block M x y r c B = Ok M' ->
  x + r <= mrows M /\ y + c <= mcols M /\
  M' = {| mrows := mrows M; mcols := mcols M;
          mcoeff := fun i j => if in_block x y r c i j then B (i - x) (j - y)
                               else mcoeff M i j |}.
Proof.
  unfold set_block. intros E.
  destruct (x + r <=? mrows M) eqn:Hr; [|discriminate].
  destruct (y + c <=? mcols M) eqn:Hc; [|discriminate].
  apply Nat.leb_le in Hr. apply Nat.leb_le in Hc. simpl in E. injection E as <-. auto.
Qed.

Lemma set_segment_fits (v : Vector C) (x r : nat) (w : nat -> C) :
  x + r <= vsize v ->
  set_segment v x r w =
  Ok {| vsize := vsize v;
        vcoeff := fun i => if in_segment x r i then w (i - x) else vcoeff v i |}.
Proof. intros Hr. unfold set_segment. apply Nat.leb_le in Hr. rewrite Hr. reflexivity. Qed.

Lemma set_segment_Ok_inv (v v' : Vector C) (x r : nat) (w : nat -> C) :
  set_segment v x r w = Ok v' ->
  x + r <= vsize v /\
  v' = {| vsize := vsize v;
          vcoeff := fun i => if in_segment x r i then w (i - x) else vcoeff v i |}.
Proof.
  unfold set_segment. intros E. destruct (x + r <=? vsize v) eqn:Hr; [|discriminate].
  apply Nat.leb_le in Hr. injection E as <-. auto.
Qed.

End DenseFacts.

(** Settles every [in_block] test whose answer follows from the hypotheses. *)
Ltac decide_in_block :=
  repeat (first [rewrite in_block_true by lia | rewrite in_block_false by lia]; cbv iota).

(** ** The indirect system matrix *)

Section IndirectMatrix.
Context `{Collaborators}.

Lemma deref_lookup (objs : list Scatterer.t) (i : nat) (sc : Scatterer.t) :
  objs !! i = Some sc -> deref objs i = Ok sc.
Proof. intros E. unfold deref. rewrite E. reflexivity. Qed.

(** One iteration of the loop over [iteri]: block (i, j) is written, and
    nothing outside it. *)
Lemma psm_row_step (n nMax K : nat) (objs : list Scatterer.t) (incWave : Excitation)
    (j : nat) (scj : Scatterer.t) (factor : Coeffs t_complex)
    (M : Matrix t_complex) (i : nat) (sci : Scatterer.t) :
  objs !! i = Some sci ->
  TLocal_size scj = 2 * n ->
  mrows M = 2 * n * K -> mcols M = 2 * n * K -> i < K -> j < K ->
  exists M',
    psm_row n nMax objs incWave j scj factor (2 * n * j) (M, 2 * n * i) i
      = Ok (M', 2 * n * i + 2 * n) /\
    mrows M' = mrows M /\ mcols M' = mcols M /\
    (forall R Cc, ~ (2 * n * i <= R < 2 * n * i + 2 * n /\
                     2 * n * j <= Cc < 2 * n * j + 2 * n) ->
                  mcoeff M' R Cc = mcoeff M R Cc) /\
    (forall r c, r < 2 * n -> c < 2 * n ->
       mcoeff M' (2 * n * i + r) (2 * n * j + c) =
       if i =? j then identity r c
       else mmul (2 * n)
              (T_AB_coeffs n (Coupling (vsub (Scatterer.vR sci) (Scatterer.vR scj))
                                       (waveK incWave) nMax)) factor r c).
Proof.
  intros Hi Hshape Hrows Hcols HiK HjK.
  set (x := 2 * n * i). set (y := 2 * n * j).
  assert (Hx : x + 2 * n <= 2 * n * K) by (subst x; nia).
  assert (Hy : y + 2 * n <= 2 * n * K) by (subst y; nia).
  unfold psm_row. cbn [fst snd].
  destruct (i =? j) eqn:Eij.
  - rewrite set_block_fits by lia. cbn [obind].
    eexists. split; [reflexivity|]. cbn [mrows mcols mcoeff].
    repeat split; try reflexivity.
    + intros R Cc Hout. now rewrite in_block_false by lia.
    + intros r c Hr Hc. rewrite in_block_true by lia. f_equal; lia.
  - rewrite (deref_lookup _ _ _ Hi). cbn [obind].
    rewrite set_block_fits by lia. cbn [obind].
    rewrite set_block_fits by (cbn [mrows mcols]; lia). cbn [obind mrows mcols].
    rewrite set_block_fits by (cbn [mrows mcols]; lia). cbn [obind mrows mcols].
    rewrite set_block_fits by (cbn [mrows mcols]; lia). cbn [obind mrows mcols].
    rewrite Hshape, Nat.eqb_refl.
    rewrite set_block_fits by (cbn [mrows mcols]; lia). cbn [obind mrows mcols].
    eexists. split; [reflexivity|]. cbn [mrows mcols mcoeff].
    repeat split; try reflexivity.
    + intros R Cc Hout. now decide_in_block.
    + intros r c Hr Hc. rewrite in_block_true by lia.
      replace (x + r - x) with r by lia. replace (y + c - y) with c by lia.
      unfold mmul. apply csum_ext. intros t Ht. f_equal.
      unfold get_block, T_AB_coeffs. cbn [mcoeff].
      destruct (Nat.ltb_spec r n), (Nat.ltb_spec t n); decide_in_block; f_equal; lia.
Qed.

(** One iteration of the loop over [iterj]: the column of blocks of [scj]
    is written, and no other column. *)
Lemma psm_column_step (n nMax : nat) (objs : list Scatterer.t) (bground : ElectroMagnetic)
    (incWave : Excitation) (M : Matrix t_complex) (j : nat) (scj : Scatterer.t) :
  let K := length objs in
  objs !! j = Some scj ->
  TLocal_size scj = 2 * n ->
  mrows M = 2 * n * K -> mcols M = 2 * n * K ->
  exists M',
    psm_column n nMax objs bground incWave 0 K (M, 2 * n * j) j
      = Ok (M', 2 * n * j + 2 * n) /\
    mrows M' = mrows M /\ mcols M' = mcols M /\
    (forall R Cc, ~ (2 * n * j <= Cc < 2 * n * j + 2 * n) ->
                  mcoeff M' R Cc = mcoeff M R Cc) /\
    (forall i sci r c, objs !! i = Some sci -> r < 2 * n -> c < 2 * n ->
       mcoeff M' (2 * n * i + r) (2 * n * j + c) =
       if i =? j then identity r c
       else coupling_times_T n nMax bground incWave sci scj r c).
Proof.
  intros K Hj Hshape Hrows Hcols.
  assert (HjK : j < K) by (apply lookup_lt_Some in Hj; exact Hj).
  unfold psm_column. cbn [fst snd]. rewrite (deref_lookup _ _ _ Hj). cbn [obind].
  set (factor := mopp (scatterer_getTLocal scj (omega incWave) bground)).
  pose (P := fun (k : nat) (st : Matrix t_complex * nat) =>
    st.2 = 2 * n * k /\ mrows st.1 = 2 * n * K /\ mcols st.1 = 2 * n * K /\
    (forall R Cc, ~ (2 * n * j <= Cc < 2 * n * j + 2 * n) ->
                  mcoeff st.1 R Cc = mcoeff M R Cc) /\
    (forall i sci r c, i < k -> objs !! i = Some sci -> r < 2 * n -> c < 2 * n ->
       mcoeff st.1 (2 * n * i + r) (2 * n * j + c) =
       if i =? j then identity r c
       else coupling_times_T n nMax bground incWave sci scj r c)).
  destruct (foldM_seq_total P (psm_row n nMax objs incWave j scj factor (2 * n * j))
              (K - 0) 0 (M, 0)) as ([M' x'] & E & HP).
  - unfold P. cbn [fst snd]. repeat split; try assumption; try lia.
  - intros k [M0 x0] Hk (Hx0 & Hr0 & Hc0 & Hframe & Hdone). cbn [fst snd] in *. subst x0.
    assert (is_Some (objs !! k)) as [sck Hsck] by (apply lookup_lt_is_Some; fold K; lia).
    destruct (psm_row_step n nMax K objs incWave j scj factor M0 k sck)
      as (M1 & E1 & Hr1 & Hc1 & Hframe1 & Hblock1); try assumption; try lia.
    exists (M1, 2 * n * k + 2 * n). split; [exact E1|].
    unfold P. cbn [fst snd]. repeat split; try congruence; try lia.
    + intros R Cc Hout. rewrite Hframe1 by lia. apply Hframe. exact Hout.
    + intros i sci r c Hlt Hi Hr Hc.
      destruct (decide (i = k)) as [->|Hne].
      * rewrite Hblock1 by assumption.
        assert (sci = sck) by congruence. subst sci. reflexivity.
      * rewrite Hframe1 by nia. apply Hdone; try assumption. lia.
  - destruct HP as (Hx' & Hr' & Hc' & Hframe & Hdone). cbn [fst snd] in *.
    rewrite E. cbn [obind fst snd].
    exists M'. repeat split; try congruence.
    + exact Hframe.
    + intros i sci r c Hi Hr Hc. apply Hdone; try assumption.
      apply lookup_lt_Some in Hi. fold K in Hi. lia.
Qed.

(** The matrix assembled over all the objects: it is square of size
    [2 * n * K], and block (i, j) holds the identity when [i = j] and the
    coupling block times minus the T-matrix of [j] otherwise. *)
Lemma psm_objects_blocks (objs : list Scatterer.t) (front : Scatterer.t)
    (bground : ElectroMagnetic) (incWave : Excitation) :
  objs !! 0 = Some front ->
  Forall (fun sc => Scatterer.nMax sc = Scatterer.nMax front) objs ->
  let nMax := Scatterer.nMax front in
  let n := max_flat nMax - 1 in
  let K := length objs in
  exists M,
    preconditioned_scattering_matrix_objects objs bground incWave = Ok M /\
    mrows M = 2 * n * K /\ mcols M = 2 * n * K /\
    (forall i j sci scj r c,
       objs !! i = Some sci -> objs !! j = Some scj -> r < 2 * n -> c < 2 * n ->
       mcoeff M (2 * n * i + r) (2 * n * j + c) =
       if i =? j then identity r c
       else coupling_times_T n nMax bground incWave sci scj r c).
Proof.
  intros Hfront Hsame nMax n K.
  assert (HK : 0 < K) by (apply lookup_lt_Some in Hfront; exact Hfront).
  unfold preconditioned_scattering_matrix_objects, preconditioned_scattering_matrix_range.
  rewrite (deref_lookup _ _ _ Hfront). cbn [obind]. fold nMax n K.
  destruct (Nat.eqb_spec 0 K) as [E0|_]; [lia|]. cbn [orb].
  rewrite Nat.sub_0_r.
  pose (P := fun (k : nat) (st : Matrix t_complex * nat) =>
    st.2 = 2 * n * k /\ mrows st.1 = 2 * n * K /\ mcols st.1 = 2 * n * K /\
    (forall i j sci scj r c, j < k ->
       objs !! i = Some sci -> objs !! j = Some scj -> r < 2 * n -> c < 2 * n ->
       mcoeff st.1 (2 * n * i + r) (2 * n * j + c) =
       if i =? j then identity r c
       else coupling_times_T n nMax bground incWave sci scj r c)).
  destruct (foldM_seq_total P (psm_column n nMax objs bground incWave 0 K) K 0
              (alloc_matrix (2 * n * K) (2 * n * K), 0)) as ([M' y'] & E & HP).
  - unfold P. cbn [fst snd alloc_matrix mrows mcols]. repeat split; try lia.
  - intros k [M0 y0] Hk (Hy0 & Hr0 & Hc0 & Hdone). cbn [fst snd] in *. subst y0.
    assert (is_Some (objs !! k)) as [sck Hsck] by (apply lookup_lt_is_Some; fold K; lia).
    assert (Hshape : TLocal_size sck = 2 * n).
    { unfold TLocal_size, n, nMax. rewrite Forall_lookup in Hsame.
      rewrite (Hsame k sck Hsck). reflexivity. }
    destruct (psm_column_step n nMax objs bground incWave M0 k sck)
      as (M1 & E1 & Hr1 & Hc1 & Hframe1 & Hcol1); try assumption.
    exists (M1, 2 * n * k + 2 * n). split; [exact E1|].
    unfold P. cbn [fst snd]. repeat split; try congruence; try lia.
    intros i j sci scj r c Hlt Hi Hj Hr Hc.
    destruct (decide (j = k)) as [->|Hne].
    + assert (scj = sck) by congruence. subst scj. apply Hcol1; assumption.
    + rewrite Hframe1 by nia. apply Hdone; try assumption. lia.
  - destruct HP as (Hy' & Hr' & Hc' & Hdone). cbn [fst snd] in *.
    rewrite E. cbn [obind fst snd].
    exists M'. repeat split; try assumption.
    intros i j sci scj r c Hi Hj Hr Hc. apply Hdone; try assumption.
    apply lookup_lt_Some in Hj. exact Hj.
Qed.

Lemma same_nMax_Forall (nMax : nat) (objs : list Scatterer.t) :
  same_nMax nMax objs = true <-> Forall (fun sc => Scatterer.nMax sc = nMax) objs.
Proof.
  unfold same_nMax. rewrite forallb_forall, Forall_forall.
  split; intros E sc Hsc.
  - apply Nat.eqb_eq, E. apply list_elem_of_In. exact Hsc.
  - apply Nat.eqb_eq, E. apply list_elem_of_In. exact Hsc.
Qed.

(** The indirect system matrix of scatterers of one degree: square of
    size 2 n K, the identity in its diagonal blocks, and in block (i, j) the
    coupling block of (i, j) times minus the T-matrix of j. *)
Lemma preconditioned_scattering_matrix_blocks (geometry : Geometry) (incWave : Excitation) (nMax : nat) :
  Forall (fun sc => Scatterer.nMax sc = nMax) (objects geometry) ->
  let n := max_flat nMax - 1 in
  let K := length (objects geometry) in
  exists M,
    preconditioned_scattering_matrix geometry incWave = Ok M /\
    mrows M = 2 * n * K /\ mcols M = 2 * n * K /\
    (forall i j sci scj r c,
       objects geometry !! i = Some sci -> objects geometry !! j = Some scj ->
       r < 2 * n -> c < 2 * n ->
       mcoeff M (2 * n * i + r) (2 * n * j + c) =
       if i =? j then identity r c
       else coupling_times_T n nMax (bground geometry) incWave sci scj r c).
Proof.
  intros Hsame n K. unfold preconditioned_scattering_matrix.
  destruct (objects geometry) as [|front rest] eqn:Eobjs.
  - exists (alloc_matrix 0 0). cbn [alloc_matrix mrows mcols]. subst K. simpl.
    repeat split; try lia. intros i j sci scj r c Hi. rewrite lookup_nil in Hi. discriminate.
  - assert (Hfront : Scatterer.nMax front = nMax) by (inversion Hsame; assumption).
    rewrite Hfront.
    assert (Hall : same_nMax nMax (front :: rest) = true) by (apply same_nMax_Forall; exact Hsame).
    rewrite Hall.
    destruct (psm_objects_blocks (front :: rest) front (bground geometry) incWave eq_refl)
      as (M & E & Hr & Hc & Hblocks); [rewrite Hfront; exact Hsame|].
    rewrite Hfront in Hr, Hc, Hblocks. fold n in Hr, Hc, Hblocks.
    exists M. repeat split; assumption.
Qed.

End IndirectMatrix.

(** ** C1: the indirect formulation, and its check of the degrees *)

Section IndirectClaims.
Context `{Collaborators}.

(** C1, with the product in the order the code computes it: for a geometry
    whose scatterers all share the same nMax, the indirect system matrix is
    built, is square of size 2 n K with n = max_flat(nMax) - 1, and for
    distinct scatterers i and j its block (i, j) is the coupling block
    C(i,j) for the displacement center_i - center_j multiplied ON THE RIGHT
    by minus the local T-matrix of j against the background,
    C(i,j) . (-T_j); every diagonal block is the identity. *)
Theorem indirect_matrix_blocks (geometry : Geometry) (incWave : Excitation) (nMax : nat) :
  Forall (fun sc => Scatterer.nMax sc = nMax) (objects geometry) ->
  let n := max_flat nMax - 1 in
  let K := length (objects geometry) in
  exists M,
    preconditioned_scattering_matrix geometry incWave = Ok M /\
    mrows M = 2 * n * K /\ mcols M = 2 * n * K /\
    (forall i j sci scj r c,
       objects geometry !! i = Some sci -> objects geometry !! j = Some scj ->
       r < 2 * n -> c < 2 * n ->
       mcoeff M (2 * n * i + r) (2 * n * j + c) =
       if i =? j then identity r c
       else coupling_times_T n nMax (bground geometry) incWave sci scj r c).
Proof. exact (preconditioned_scattering_matrix_blocks geometry incWave nMax). Qed.

Lemma mixed_degrees_not_same (objs : list Scatterer.t) (front : Scatterer.t) :
  objs !! 0 = Some front ->
  (exists i j sci scj, objs !! i = Some sci /\ objs !! j = Some scj /\
                       Scatterer.nMax sci <> Scatterer.nMax scj) ->
  same_nMax (Scatterer.nMax front) objs = false.
Proof.
  intros Hfront (i & j & sci & scj & Hi & Hj & Hne).
  apply not_true_iff_false. intros E. apply same_nMax_Forall in E.
  rewrite Forall_lookup in E.
  apply Hne. rewrite (E i sci Hi), (E j scj Hj). reflexivity.
Qed.

(** The functions that check the degrees: a geometry containing two
    scatterers whose nMax differ makes the assembly of the system matrix
    from the geometry, of the source vector and of the second-harmonic
    source vector signal the configuration error, and [populate] in the
    indirect formulation signals it to the caller without producing a
    system. *)
Lemma indirect_assembly_rejects_mixed_degrees (geometry : Geometry) :
  (exists i j sci scj,
      objects geometry !! i = Some sci /\ objects geometry !! j = Some scj /\
      Scatterer.nMax sci <> Scatterer.nMax scj) ->
  (forall incWave, preconditioned_scattering_matrix geometry incWave = Throw harmonics_error) /\
  (forall incWave, source_vector geometry incWave = Throw harmonics_error) /\
  (forall h incWave input, local_source_vector h geometry incWave input = Throw harmonics_error) /\
  (forall m s, Solver.geometry s = geometry ->
               Solver.solverMethod s = O3DSolverIndirect ->
               Solver.populate m s = Throw harmonics_error).
Proof.
  intros Hmix.
  assert (Hfront : exists front, objects geometry !! 0 = Some front).
  { destruct Hmix as (i & j & sci & scj & Hi & _).
    destruct (objects geometry) as [|front rest]; [rewrite lookup_nil in Hi; discriminate|].
    exists front. reflexivity. }
  destruct Hfront as (front & Hfront).
  pose proof (mixed_degrees_not_same _ _ Hfront Hmix) as Hdiff.
  assert (Hpsm : forall incWave,
             preconditioned_scattering_matrix geometry incWave = Throw harmonics_error).
  { intros incWave. unfold preconditioned_scattering_matrix.
    destruct (objects geometry) as [|front' rest]; [discriminate|].
    injection Hfront as ->. rewrite Hdiff. reflexivity. }
  assert (Hsv : forall incWave, source_vector geometry incWave = Throw harmonics_error).
  { intros incWave. unfold source_vector.
    destruct (objects geometry) as [|front' rest]; [discriminate|].
    injection Hfront as ->. rewrite Hdiff. reflexivity. }
  assert (Hlsv : forall h incWave input,
             local_source_vector h geometry incWave input = Throw harmonics_error).
  { intros h incWave input. unfold local_source_vector.
    destruct (objects geometry) as [|front' rest]; [discriminate|].
    injection Hfront as ->. rewrite Hdiff. reflexivity. }
  repeat split; try assumption.
  intros m s Hg Hmethod. unfold Solver.populate. rewrite Hmethod, Z.eqb_refl.
  unfold Solver.populateIndirect. cbn [Solver.set_system Solver.result_FF Solver.geometry].
  rewrite Hg. destruct (Solver.result_FF s) as [r|].
  - rewrite Hlsv. reflexivity.
  - rewrite Hsv. reflexivity.
Qed.

End IndirectClaims.

(** ** C6 and C8: the geometry without scatterers, and the internal coefficients *)

Section SolveClaims.
Context `{Collaborators}.

Lemma set_sources_id (m : Memory) : Solver.set_sources m (sources m) = m.
Proof. destruct m. reflexivity. Qed.

Lemma resize_rows (M : Matrix t_complex) (r c : nat) : mrows (resize M r c) = r.
Proof. unfold resize. destruct (_ =? _); reflexivity. Qed.

Lemma resize_cols (M : Matrix t_complex) (r c : nat) : mcols (resize M r c) = c.
Proof. unfold resize. destruct (_ =? _); reflexivity. Qed.

Lemma vresize_size (v : Vector t_complex) (r : nat) : vsize (vresize v r) = r.
Proof.
  unfold vresize. destruct (Nat.eqb_spec (vsize v) r); [assumption | reflexivity].
Qed.

(** C6 on the code: for a geometry with zero scatterers the system matrix
    of the indirect formulation is the empty matrix, but both source-vector
    functions fail the size assertion of [Vector<t_complex>(0, 0)], so that
    the indirect population does not return; the direct population returns
    an empty system (S with zero rows and columns, Q of size zero) and
    leaves the memory as it was. *)
Theorem no_scatterers_assembly (m : Memory) (s : Solver.t) :
  objects (Solver.geometry s) = [] ->
  (exists M,
     preconditioned_scattering_matrix (Solver.geometry s) (Solver.incWave s) = Ok M /\
     mrows M = 0 /\ mcols M = 0) /\
  source_vector (Solver.geometry s) (Solver.incWave s) = Abort /\
  (forall h input,
     local_source_vector h (Solver.geometry s) (Solver.incWave s) input = Abort) /\
  (Solver.solverMethod s = O3DSolverIndirect -> Solver.populate m s = Abort) /\
  (Solver.solverMethod s <> O3DSolverIndirect ->
   exists s',
     Solver.populate m s = Ok (m, s') /\
     mrows (Solver.S s') = 0 /\ mcols (Solver.S s') = 0 /\ vsize (Solver.Q s') = 0).
Proof.
  intros Hobjs.
  assert (Hsize : scatterer_size (Solver.geometry s) = 0)
    by (unfold scatterer_size; rewrite Hobjs; reflexivity).
  assert (Hsv : source_vector (Solver.geometry s) (Solver.incWave s) = Abort)
    by (unfold source_vector; rewrite Hobjs; reflexivity).
  assert (Hlsv : forall h input,
             local_source_vector h (Solver.geometry s) (Solver.incWave s) input = Abort)
    by (intros h input; unfold local_source_vector; rewrite Hobjs; reflexivity).
  split; [|split; [exact Hsv | split; [exact Hlsv | split]]].
  - unfold preconditioned_scattering_matrix. rewrite Hobjs.
    eexists. split; [reflexivity|]. split; reflexivity.
  - intros Hmethod. unfold Solver.populate. rewrite Hmethod, Z.eqb_refl.
    unfold Solver.populateIndirect.
    cbn [Solver.set_system Solver.result_FF Solver.geometry Solver.incWave].
    destruct (Solver.result_FF s) as [r|].
    + rewrite Hlsv. reflexivity.
    + rewrite Hsv. reflexivity.
  - intros Hmethod. unfold Solver.populate. rewrite Hsize.
    destruct (Z.eqb_spec (Solver.solverMethod s) O3DSolverIndirect) as [|_]; [contradiction|].
    unfold Solver.populateDirect.
    cbn [Solver.set_system Solver.result_FF Solver.geometry Solver.incWave Solver.nMax
         Solver.S Solver.Q].
    unfold setSourcesSingle. rewrite Hobjs. cbn [length seq foldM obind imap foldl fst snd].
    assert (Hm : match Solver.result_FF s with
                 | Some _ => Solver.set_sources m
                               match Solver.result_FF s with
                               | Some _ => sources m
                               | None => sources m
                               end
                 | None => m
                 end = m) by (destruct (Solver.result_FF s); [apply set_sources_id | reflexivity]).
    rewrite Hm. eexists. split; [reflexivity|].
    cbn [Solver.set_system Solver.geometry Solver.context_is_valid Solver.S Solver.Q].
    rewrite resize_rows, resize_cols, vresize_size. repeat split; reflexivity.
Qed.

(** C8: for a scattered-coefficient vector holding a block of
    N = 2 (max_flat(nMax) - 1) coefficients for each of the K scatterers,
    [solveInternal] returns a vector of the same length in which, for every
    scatterer j, block j is the element-wise product of the internal
    auxiliary coefficients of scatterer j with block j of the scattered
    vector: block j depends on no other scatterer and no other block. *)
Theorem internal_coefficients_blockwise (s : Solver.t) (X_sca : Vector t_complex) :
  let N := 2 * (max_flat (Solver.nMax s) - 1) in
  let K := length (objects (Solver.geometry s)) in
  K * N <= vsize X_sca ->
  exists X_int,
    Solver.solveInternal s X_sca = Ok X_int /\
    vsize X_int = vsize X_sca /\
    (forall j t, j < K -> t < N ->
       vcoeff X_int (j * N + t) =
       cmul (getIaux (Solver.geometry s) (omega (Solver.incWave s)) j (Solver.nMax s) t)
            (vcoeff X_sca (j * N + t))).
Proof.
  intros N K Hsize. unfold Solver.solveInternal. fold N K.
  pose (P := fun (k : nat) (v : Vector t_complex) =>
    vsize v = vsize X_sca /\
    (forall j t, j < k -> t < N ->
       vcoeff v (j * N + t) =
       getIaux (Solver.geometry s) (omega (Solver.incWave s)) j (Solver.nMax s) t)).
  destruct (foldM_seq_total P
              (fun result j =>
                 set_segment result (j * N) N
                   (getIaux (Solver.geometry s) (omega (Solver.incWave s)) j (Solver.nMax s)))
              K 0 (alloc_vector (vsize X_sca))) as (v & E & Hv & Hblocks).
  - unfold P. cbn [alloc_vector vsize]. split; [reflexivity | lia].
  - intros k v0 Hk (Hv0 & Hdone).
    rewrite set_segment_fits by nia. eexists. split; [reflexivity|].
    unfold P. cbn [vsize vcoeff]. split; [assumption|].
    intros j t Hj Ht. destruct (decide (j = k)) as [->|Hne].
    + rewrite in_segment_true by lia. f_equal. lia.
    + rewrite in_segment_false by nia. apply Hdone; lia.
  - rewrite E. cbn [obind]. eexists. split; [reflexivity|].
    cbn [array_mul vsize vcoeff]. split; [assumption|].
    intros j t Hj Ht. rewrite Hblocks by assumption. reflexivity.
Qed.

End SolveClaims.

(** ** C7: who writes the source-coefficient buffers *)

Section SourceBuffers.
Context `{Collaborators}.

Lemma foldl_insert_other {V : Type} (f : nat -> V) (l : list (nat * Scatterer.t))
    (h : gmap loc V) (k : loc) :
  k ∉ (Scatterer.sourceCoef ∘ snd) <$> l ->
  foldl (fun h' jsc => <[Scatterer.sourceCoef jsc.2 := f jsc.1]> h') h l !! k = h !! k.
Proof.
  revert h. induction l as [|[j sc] l IH]; intros h Hk; [reflexivity|].
  cbn [foldl fst snd]. rewrite fmap_cons, not_elem_of_cons in Hk. destruct Hk as [Hne Hk].
  rewrite IH by exact Hk. apply lookup_insert_ne. cbn in Hne. congruence.
Qed.

Lemma foldl_insert_lookup {V : Type} (f : nat -> V) (l : list (nat * Scatterer.t))
    (h : gmap loc V) (j : nat) (sc : Scatterer.t) :
  NoDup ((Scatterer.sourceCoef ∘ snd) <$> l) ->
  (j, sc) ∈ l ->
  foldl (fun h' jsc => <[Scatterer.sourceCoef jsc.2 := f jsc.1]> h') h l
    !! Scatterer.sourceCoef sc = Some (f j).
Proof.
  revert h. induction l as [|[j0 sc0] l IH]; intros h Hnd Hin.
  - apply elem_of_nil in Hin. contradiction.
  - rewrite fmap_cons in Hnd. apply NoDup_cons in Hnd as [Hfresh Hnd].
    cbn [foldl fst snd]. apply elem_of_cons in Hin as [Heq|Hin].
    + injection Heq as -> ->. rewrite foldl_insert_other by exact Hfresh.
      apply lookup_insert_eq.
    + apply IH; assumption.
Qed.

(** After [setSourcesSingle], the buffer of every scatterer holds the
    sources derived for it, provided no two scatterers share a buffer. *)
Lemma setSourcesSingle_lookup (geometry : Geometry) (incWave : Excitation)
    (internal : Vector t_complex) (nMax : nat) (h : gmap loc (nat -> t_complex))
    (j : nat) (sc : Scatterer.t) :
  NoDup (Scatterer.sourceCoef <$> objects geometry) ->
  objects geometry !! j = Some sc ->
  setSourcesSingle geometry incWave internal nMax h !! Scatterer.sourceCoef sc
  = Some (sourceCoefficients geometry incWave internal nMax j).
Proof.
  intros Hnd Hj. unfold setSourcesSingle.
  apply (foldl_insert_lookup (sourceCoefficients geometry incWave internal nMax)).
  - rewrite fmap_imap.
    rewrite (imap_ext _ (const Scatterer.sourceCoef)) by reflexivity.
    rewrite imap_const. exact Hnd.
  - apply (elem_of_lookup_imap_2 pair _ _ _ Hj).
Qed.

Lemma populate_frame (m m' : Memory) (s s' : Solver.t) :
  Solver.populate m s = Ok (m', s') ->
  Solver.geometry s' = Solver.geometry s /\
  Solver.incWave s' = Solver.incWave s /\
  Solver.nMax s' = Solver.nMax s /\
  Solver.result_FF s' = Solver.result_FF s /\
  Solver.solverMethod s' = Solver.solverMethod s /\
  Solver.context_is_valid s' = Solver.context_is_valid s /\
  results m' = results m.
Proof.
  unfold Solver.populate. destruct (Solver.solverMethod s =? O3DSolverIndirect)%Z.
  - unfold Solver.populateIndirect. cbn [Solver.set_system Solver.result_FF Solver.geometry
      Solver.incWave]. destruct (Solver.result_FF s) as [r|] eqn:Er; intros E.
    + apply obind_Ok_inv in E as (hq & _ & E). apply obind_Ok_inv in E as (S' & _ & E).
      injection E as <- <-. cbn. repeat split; congruence.
    + apply obind_Ok_inv in E as (Q' & _ & E). apply obind_Ok_inv in E as (S' & _ & E).
      injection E as <- <-. cbn. repeat split; congruence.
  - unfold Solver.populateDirect. intros E. apply obind_Ok_inv in E as (st & _ & E).
    injection E as <- <-. cbn. repeat split; try reflexivity.
    destruct (Solver.result_FF s); reflexivity.
Qed.

(** The sources a population leaves in memory. *)
Lemma populate_sources (m m' : Memory) (s s' : Solver.t) :
  Solver.populate m s = Ok (m', s') ->
  match Solver.result_FF s with
  | None => m' = m
  | Some r =>
      match objects (Solver.geometry s) with
      | [] => m' = m
      | front :: _ =>
          sources m' =
          setSourcesSingle (Solver.geometry s) (Solver.incWave s)
                           (internal_coef (results m r))
                           (population_degree s front) (sources m)
      end
  end.
Proof.
  unfold Solver.populate, population_degree.
  destruct (Solver.solverMethod s =? O3DSolverIndirect)%Z.
  - unfold Solver.populateIndirect. cbn [Solver.set_system Solver.result_FF Solver.geometry
      Solver.incWave]. destruct (Solver.result_FF s) as [r|]; intros E.
    + apply obind_Ok_inv in E as (hq & Eq & E). apply obind_Ok_inv in E as (S' & _ & E).
      injection E as <- <-. unfold local_source_vector in Eq.
      destruct (objects (Solver.geometry s)) as [|front rest] eqn:Eobjs.
      * discriminate Eq.
      * destruct (same_nMax _ _); [|discriminate].
        apply obind_Ok_inv in Eq as (v & _ & Eq). injection Eq as <-. reflexivity.
    + apply obind_Ok_inv in E as (Q' & _ & E). apply obind_Ok_inv in E as (S' & _ & E).
      injection E as <- <-. reflexivity.
  - unfold Solver.populateDirect. cbn [Solver.set_system Solver.result_FF Solver.geometry
      Solver.incWave Solver.nMax]. intros E. apply obind_Ok_inv in E as (st & _ & E).
    injection E as <- <-. destruct (Solver.result_FF s) as [r|]; [|reflexivity].
    destruct (objects (Solver.geometry s)) as [|front rest] eqn:Eobjs; [|reflexivity].
    unfold setSourcesSingle. rewrite Eobjs. cbn [imap foldl]. apply set_sources_id.
Qed.

(** In the indirect formulation a population that returned has checked
    that all scatterers carry the degree of the first one. *)
Lemma populate_indirect_same_nMax (m m' : Memory) (s s' : Solver.t) (front : Scatterer.t) :
  Solver.populate m s = Ok (m', s') ->
  Solver.solverMethod s = O3DSolverIndirect ->
  objects (Solver.geometry s) !! 0 = Some front ->
  Forall (fun sc => Scatterer.nMax sc = Scatterer.nMax front) (objects (Solver.geometry s)).
Proof.
  unfold Solver.populate. intros E Hmethod Hfront. rewrite Hmethod, Z.eqb_refl in E.
  unfold Solver.populateIndirect in E.
  cbn [Solver.set_system Solver.result_FF Solver.geometry Solver.incWave] in E.
  assert (Epsm : exists S', preconditioned_scattering_matrix (Solver.geometry s)
                                (Solver.incWave s) = Ok S').
  { destruct (Solver.result_FF s) as [r|];
      apply obind_Ok_inv in E as (? & _ & E); apply obind_Ok_inv in E as (S' & ES & _);
      exists S'; exact ES. }
  destruct Epsm as (S' & ES). unfold preconditioned_scattering_matrix in ES.
  destruct (objects (Solver.geometry s)) as [|front' rest]; [discriminate|].
  injection Hfront as ->.
  destruct (same_nMax (Scatterer.nMax front) (front :: rest)) eqn:Esame; [|discriminate].
  apply same_nMax_Forall. exact Esame.
Qed.

(** After a population that ran with a first-harmonic result set, the
    buffer of every scatterer of the registry holds the sources derived for
    it from the internal coefficients of that result. *)
Lemma populate_SH_buffers (m m' : Memory) (s s' : Solver.t) (r : loc) :
  Solver.populate m s = Ok (m', s') ->
  Solver.result_FF s = Some r ->
  NoDup (Scatterer.sourceCoef <$> objects (Solver.geometry s)) ->
  forall j sc,
    objects (Solver.geometry s) !! j = Some sc ->
    sources m' !! Scatterer.sourceCoef sc =
    Some (sourceCoefficients (Solver.geometry s) (Solver.incWave s)
                             (internal_coef (results m r)) (population_degree s sc) j).
Proof.
  intros E Hr Hnd j sc Hj.
  pose proof (populate_sources _ _ _ _ E) as Hsrc. rewrite Hr in Hsrc.
  destruct (objects (Solver.geometry s)) as [|front rest] eqn:Eobjs;
    [rewrite lookup_nil in Hj; discriminate|].
  rewrite <- Eobjs in Hj, Hnd.
  assert (Hdeg : population_degree s sc = population_degree s front).
  { unfold population_degree.
    destruct (Z.eqb_spec (Solver.solverMethod s) O3DSolverIndirect) as [Hmethod|]; [|reflexivity].
    assert (Hfront : objects (Solver.geometry s) !! 0 = Some front) by (rewrite Eobjs; reflexivity).
    pose proof (populate_indirect_same_nMax _ _ _ _ _ E Hmethod Hfront) as Hall.
    rewrite Forall_lookup in Hall. apply (Hall j sc Hj). }
  rewrite Hsrc, Hdeg. apply setSourcesSingle_lookup; assumption.
Qed.

(** C7: a population that runs with a first-harmonic result set (the
    second-harmonic source population) overwrites the source-coefficient
    buffer of every scatterer of the registry with the local sources newly
    derived from that result's internal coefficients, in the direct
    formulation through the geometry itself and in the indirect one through
    the pointers its copy shares; a population without a first-harmonic
    result leaves the memory untouched; and neither changes the scatterer
    records of the registry.  ([solve] is a function of the solver alone and
    has no memory to change.) *)
Theorem sources_overwritten_only_by_SH_population (m m' : Memory) (s s' : Solver.t) :
  Solver.populate m s = Ok (m', s') ->
  Solver.geometry s' = Solver.geometry s /\
  match Solver.result_FF s with
  | None => m' = m
  | Some r =>
      NoDup (Scatterer.sourceCoef <$> objects (Solver.geometry s)) ->
      forall j sc,
        objects (Solver.geometry s) !! j = Some sc ->
        sources m' !! Scatterer.sourceCoef sc =
        Some (sourceCoefficients (Solver.geometry s) (Solver.incWave s)
                                 (internal_coef (results m r)) (population_degree s sc) j)
  end.
Proof.
  intros E. split; [apply (populate_frame _ _ _ _ E)|].
  destruct (Solver.result_FF s) as [r|] eqn:Er.
  - apply (populate_SH_buffers _ _ _ _ r E Er).
  - pose proof (populate_sources _ _ _ _ E) as Hsrc. rewrite Er in Hsrc. exact Hsrc.
Qed.

End SourceBuffers.

(** ** The source vectors *)

Section SourceVectors.
Context `{Collaborators}.

(** [source_vector] on one scatterer or more, all of one degree: block i
    holds the incoming excitation at the centre of scatterer i. *)
Lemma source_vector_blocks (geometry : Geometry) (incWave : Excitation) (nMax : nat) :
  objects geometry <> [] ->
  Forall (fun sc => Scatterer.nMax sc = nMax) (objects geometry) ->
  let flatMax := max_flat nMax - 1 in
  let K := length (objects geometry) in
  exists v,
    source_vector geometry incWave = Ok v /\
    vsize v = 2 * flatMax * K /\
    (forall i sci t, objects geometry !! i = Some sci -> t < 2 * flatMax ->
       vcoeff v (2 * flatMax * i + t) = getIncLocal incWave (Scatterer.vR sci) nMax t).
Proof.
  intros Hobjs Hsame flatMax K. unfold source_vector.
  destruct (objects geometry) as [|front rest] eqn:Eobjs.
  - contradiction.
  - assert (Hfront : Scatterer.nMax front = nMax) by (inversion Hsame; assumption).
    assert (Hall : same_nMax (Scatterer.nMax front) (front :: rest) = true)
      by (rewrite Hfront; apply same_nMax_Forall; exact Hsame).
    rewrite Hall. unfold source_vector_objects, source_vector_range.
    fold K. destruct (Nat.eqb_spec 0 K) as [E0|_]; [subst K; simpl in E0; lia|].
    cbn [deref lookup list_lookup obind]. rewrite Hfront. fold flatMax. rewrite Nat.sub_0_r.
    pose (P := fun (k : nat) (st : Vector t_complex * nat) =>
      st.2 = 2 * flatMax * k /\ vsize st.1 = 2 * flatMax * K /\
      (forall i sci t, i < k -> (front :: rest) !! i = Some sci -> t < 2 * flatMax ->
         vcoeff st.1 (2 * flatMax * i + t) = getIncLocal incWave (Scatterer.vR sci) nMax t)).
    destruct (foldM_seq_total P (source_vector_step nMax flatMax (front :: rest) incWave) K 0
                (alloc_vector (2 * flatMax * K), 0)) as ([v i'] & E & HP).
    + unfold P. cbn [fst snd alloc_vector vsize]. repeat split; lia.
    + intros k [v0 i0] Hk (Hi0 & Hv0 & Hdone). cbn [fst snd] in *. subst i0.
      assert (is_Some ((front :: rest) !! k)) as [sck Hsck] by (apply lookup_lt_is_Some; fold K; lia).
      unfold source_vector_step. cbn [fst snd]. unfold deref. rewrite Hsck. cbn [obind].
      rewrite set_segment_fits by nia. cbn [obind].
      eexists. split; [reflexivity|]. unfold P. cbn [fst snd vsize vcoeff].
      repeat split; try assumption; try lia.
      intros i sci t Hlt Hi Ht. destruct (decide (i = k)) as [->|Hne].
      * rewrite in_segment_true by lia. assert (sci = sck) by congruence. subst sci.
        f_equal. lia.
      * rewrite in_segment_false by nia. apply Hdone; try assumption. lia.
    + destruct HP as (_ & Hv & Hdone). cbn [fst snd] in *. rewrite E. cbn [obind fst].
      exists v. repeat split; try assumption.
      intros i sci t Hi Ht. apply Hdone; try assumption.
      apply lookup_lt_Some in Hi. exact Hi.
Qed.

(** [local_source_vector] on one scatterer or more, all of one degree: the
    sources are set in memory, and block i holds the local sources of
    scatterer i read back from there. *)
Lemma local_source_vector_blocks (h : gmap loc (nat -> t_complex)) (geometry : Geometry)
    (incWave : Excitation) (input : Vector t_complex) (nMax : nat) :
  objects geometry <> [] ->
  Forall (fun sc => Scatterer.nMax sc = nMax) (objects geometry) ->
  let flatMax := max_flat nMax - 1 in
  let K := length (objects geometry) in
  exists h' v,
    local_source_vector h geometry incWave input = Ok (h', v) /\
    vsize v = 2 * flatMax * K /\
    (forall i t, i < K -> t < 2 * flatMax ->
       vcoeff v (2 * flatMax * i + t) = getSourceLocal geometry h' i incWave nMax t).
Proof.
  intros Hobjs Hsame flatMax K. unfold local_source_vector.
  destruct (objects geometry) as [|front rest] eqn:Eobjs.
  - contradiction.
  - assert (Hfront : Scatterer.nMax front = nMax) by (inversion Hsame; assumption).
    assert (Hall : same_nMax (Scatterer.nMax front) (front :: rest) = true)
      by (rewrite Hfront; apply same_nMax_Forall; exact Hsame).
    rewrite Hall, Hfront. cbv zeta. fold flatMax K.
    set (h' := setSourcesSingle geometry incWave input nMax h).
    pose (P := fun (k : nat) (v : Vector t_complex) =>
      vsize v = 2 * flatMax * K /\
      (forall i t, i < k -> t < 2 * flatMax ->
         vcoeff v (2 * flatMax * i + t) = getSourceLocal geometry h' i incWave nMax t)).
    destruct (foldM_seq_total P
                (fun result i =>
                   set_segment result (i * 2 * flatMax) (2 * flatMax)
                     (getSourceLocal geometry h' i incWave nMax))
                K 0 (alloc_vector (flatMax * 2 * K))) as (v & E & Hv & Hdone).
    + unfold P. cbn [alloc_vector vsize]. split; lia.
    + intros k v0 Hk (Hv0 & Hdone). rewrite set_segment_fits by nia.
      eexists. split; [reflexivity|]. unfold P. cbn [vsize vcoeff]. split; [assumption|].
      intros i t Hlt Ht. destruct (decide (i = k)) as [->|Hne].
      * rewrite in_segment_true by lia. f_equal. lia.
      * rewrite in_segment_false by nia. apply Hdone; lia.
    + rewrite E. cbn [obind]. exists h', v. repeat split; assumption.
Qed.

(** A direct population that returned has set block i of [Q] to the local
    T-matrix of object i applied to its local incoming coefficients. *)
Lemma populateDirect_Q (m m' : Memory) (s s' : Solver.t) :
  Solver.populateDirect m s = Ok (m', s') ->
  let flatMax := max_flat (Solver.nMax s) - 1 in
  forall i t, i < length (objects (Solver.geometry s)) -> t < 2 * flatMax ->
    exists Q_local,
      Solver.populateDirect_Q_local (sources m') s i = Ok Q_local /\
      vcoeff (Solver.Q s') (i * 2 * flatMax + t) =
      mvmul (2 * flatMax)
            (getTLocal (Solver.geometry s) (omega (Solver.incWave s)) i (Solver.nMax s))
            Q_local t.
Proof.
  unfold Solver.populateDirect. intros E. cbv zeta in E |- *.
  set (flatMax := max_flat (Solver.nMax s) - 1) in *.
  apply obind_Ok_inv in E as (st & Efold & E).
  injection E as <- <-. cbn [Solver.set_system Solver.Q].
  set (h := match Solver.result_FF s with
            | Some r => setSourcesSingle (Solver.geometry s) (Solver.incWave s)
                          (internal_coef (results m r)) (Solver.nMax s) (sources m)
            | None => sources m
            end) in *.
  assert (Hh : forall i, Solver.populateDirect_Q_local
                 (sources match Solver.result_FF s with
                          | Some _ => Solver.set_sources m h
                          | None => m
                          end) s i = Solver.populateDirect_Q_local h s i).
  { intros i. unfold Solver.populateDirect_Q_local. destruct (Solver.result_FF s); reflexivity. }
  pose (P := fun (k : nat) (st : Matrix t_complex * Vector t_complex * Matrix t_complex) =>
    forall i t, i < k -> t < 2 * flatMax ->
      exists Q_local,
        Solver.populateDirect_Q_local h s i = Ok Q_local /\
        vcoeff st.1.2 (i * 2 * flatMax + t) =
        mvmul (2 * flatMax)
              (getTLocal (Solver.geometry s) (omega (Solver.incWave s)) i (Solver.nMax s))
              Q_local t).
  intros i t Hi Ht. rewrite Hh.
  apply (foldM_seq_inv P _ _ _ _ _ Efold); try assumption.
  - unfold P. intros ? ? Hlt. lia.
  - intros k a0 a1 Hk HP Estep i0 t0 Hi0 Ht0. unfold Solver.populateDirect_row in Estep.
    apply obind_Ok_inv in Estep as (Q_local & EQ & Estep).
    apply obind_Ok_inv in Estep as (Q1 & Eseg & Estep).
    apply obind_Ok_inv in Estep as (st' & _ & Estep).
    injection Estep as <-. cbn [fst snd].
    apply set_segment_Ok_inv in Eseg as (_ & ->). cbn [vcoeff].
    destruct (decide (i0 = k)) as [->|Hne].
    + exists Q_local. split; [exact EQ|].
      rewrite in_segment_true by lia. f_equal. lia.
    + rewrite in_segment_false by nia. apply HP; lia.
Qed.

End SourceVectors.

(** ** C10: re-population by [update] *)

Section Repopulation.
Context `{Collaborators}.

(** The source vector a population leaves: block i is [Q_block], computed
    with the memory the population leaves. *)
Lemma populate_Q (m m' : Memory) (s s' : Solver.t) :
  Solver.populate m s = Ok (m', s') ->
  forall i sci t,
    objects (Solver.geometry s) !! i = Some sci ->
    t < 2 * (max_flat (population_degree s sci) - 1) ->
    vcoeff (Solver.Q s') (2 * (max_flat (population_degree s sci) - 1) * i + t)
    = Q_block m' s i sci t.
Proof.
  intros E i sci t Hi Ht.
  assert (Hfront : exists front, objects (Solver.geometry s) !! 0 = Some front).
  { destruct (objects (Solver.geometry s)) as [|front rest];
      [rewrite lookup_nil in Hi; discriminate | exists front; reflexivity]. }
  destruct Hfront as (front & Hfront).
  assert (Hobjs : objects (Solver.geometry s) <> [])
    by (intros Hnil; rewrite Hnil in Hfront; discriminate).
  unfold Q_block, incoming_block. revert Ht. unfold population_degree.
  destruct (Z.eqb_spec (Solver.solverMethod s) O3DSolverIndirect) as [Hmethod|Hmethod].
  - pose proof (populate_indirect_same_nMax _ _ _ _ _ E Hmethod Hfront) as Hall.
    assert (Hdeg : Scatterer.nMax sci = Scatterer.nMax front)
      by (rewrite Forall_lookup in Hall; apply (Hall i sci Hi)).
    rewrite Hdeg. intros Ht.
    unfold Solver.populate in E. rewrite Hmethod, Z.eqb_refl in E.
    unfold Solver.populateIndirect in E.
    cbn [Solver.set_system Solver.result_FF Solver.geometry Solver.incWave] in E.
    destruct (Solver.result_FF s) as [r|].
    + apply obind_Ok_inv in E as (hq & Eq & E). apply obind_Ok_inv in E as (S' & _ & E).
      injection E as <- <-. cbn [Solver.set_system Solver.Q Solver.set_sources sources].
      destruct (local_source_vector_blocks (sources m) (Solver.geometry s) (Solver.incWave s)
                  (internal_coef (results m r)) _ Hobjs Hall) as (h' & v & Ev & _ & Hblocks).
      rewrite Ev in Eq. injection Eq as <-. cbn [fst snd].
      apply Hblocks; [|assumption]. apply lookup_lt_Some in Hi. exact Hi.
    + apply obind_Ok_inv in E as (Q' & Eq & E). apply obind_Ok_inv in E as (S' & _ & E).
      injection E as <- <-. cbn [Solver.set_system Solver.Q].
      destruct (source_vector_blocks (Solver.geometry s) (Solver.incWave s) _ Hobjs Hall)
        as (v & Ev & _ & Hblocks).
      rewrite Ev in Eq. injection Eq as <-. apply Hblocks; assumption.
  - intros Ht. unfold Solver.populate in E.
    destruct (Z.eqb_spec (Solver.solverMethod s) O3DSolverIndirect) as [|_]; [contradiction|].
    destruct (populateDirect_Q _ _ _ _ E i t) as (Q_local & EQ & Hblock).
    + cbn [Solver.set_system Solver.geometry]. apply lookup_lt_Some in Hi. exact Hi.
    + exact Ht.
    + cbn [Solver.set_system Solver.geometry Solver.incWave Solver.nMax] in Hblock.
      replace (2 * (max_flat (Solver.nMax s) - 1) * i) with
        (i * 2 * (max_flat (Solver.nMax s) - 1)) by lia.
      rewrite Hblock. f_equal.
      unfold Solver.populateDirect_Q_local in EQ.
      cbn [Solver.set_system Solver.geometry Solver.incWave Solver.nMax Solver.result_FF] in EQ.
      destruct (Solver.result_FF s) as [r|].
      * injection EQ as <-. reflexivity.
      * unfold deref in EQ. rewrite Hi in EQ. injection EQ as <-. reflexivity.
Qed.

(** C10: when [update] returns, the solver holds no first-harmonic result
    whatever it held before, no source buffer was written, and every block
    of the re-populated Q is built from the external excitation at the
    centre of the scatterer (multiplied by the local T-matrix in the direct
    formulation); a later [SH] with a non-null pointer re-populates. *)
Theorem update_clears_second_harmonic (m m' : Memory) (geometry_ : Geometry)
    (incWave_ : Excitation) (nMax_ : nat) (s s' : Solver.t) :
  Solver.update m geometry_ incWave_ nMax_ s = Ok (m', s') ->
  Solver.result_FF s' = None /\
  m' = m /\
  Solver.geometry s' = geometry_ /\ Solver.incWave s' = incWave_ /\
  Solver.nMax s' = nMax_ /\
  (forall i sci t,
     objects geometry_ !! i = Some sci ->
     t < 2 * (max_flat (population_degree s' sci) - 1) ->
     vcoeff (Solver.Q s') (2 * (max_flat (population_degree s' sci) - 1) * i + t)
     = if (Solver.solverMethod s' =? O3DSolverIndirect)%Z
       then getIncLocal incWave_ (Scatterer.vR sci) (population_degree s' sci) t
       else mvmul (2 * (max_flat (population_degree s' sci) - 1))
                  (getTLocal geometry_ (omega incWave_) i (population_degree s' sci))
                  (getIncLocal incWave_ (Scatterer.vR sci) (population_degree s' sci)) t) /\
  (forall p, Solver.SH m' (Some p) s'
             = Solver.populate m' (Solver.set_result_FF s' (Some p))).
Proof.
  unfold Solver.update. intros E.
  pose proof (populate_frame _ _ _ _ E) as (Hg & He & Hn & Hr & Hmethod & _).
  cbn [Solver.geometry Solver.incWave Solver.nMax Solver.result_FF Solver.solverMethod]
    in Hg, He, Hn, Hr, Hmethod.
  pose proof (populate_sources _ _ _ _ E) as Hsrc. cbn [Solver.result_FF] in Hsrc.
  repeat split; try assumption.
  - intros i sci t Hi.
    assert (Hdeg : forall sc, population_degree s' sc =
                     population_degree
                       {| Solver.geometry := geometry_; Solver.incWave := incWave_;
                          Solver.nMax := nMax_; Solver.result_FF := None;
                          Solver.solverMethod := Solver.solverMethod s;
                          Solver.context_is_valid := Solver.context_is_valid s;
                          Solver.S := Solver.S s; Solver.Q := Solver.Q s |} sc).
    { intros sc. unfold population_degree. cbn [Solver.solverMethod Solver.nMax].
      rewrite Hmethod, Hn. reflexivity. }
    rewrite Hdeg. intros Ht.
    rewrite (populate_Q _ _ _ _ E i sci t Hi Ht).
    unfold Q_block, incoming_block.
    cbn [Solver.solverMethod Solver.result_FF Solver.geometry Solver.incWave].
    rewrite Hmethod. destruct (_ =? _)%Z; reflexivity.
  - intros p. unfold Solver.SH. rewrite Hr.
    destruct (decide (Some p = None)) as [Heq|_]; [discriminate | reflexivity].
Qed.

End Repopulation.

(** ** The direct system matrix *)

Section DirectMatrix.
Context `{Collaborators}.

(** The four corner assignments fill [T_AB] with the 2 x 2 arrangement of
    the coupling. *)
Lemma assign_T_AB_coeffs (flatMax : nat) (AB : Coeffs t_complex * Coeffs t_complex)
    (T_AB : Matrix t_complex) :
  mrows T_AB = 2 * flatMax -> mcols T_AB = 2 * flatMax ->
  exists T_AB',
    Solver.assign_T_AB flatMax AB T_AB = Ok T_AB' /\
    mrows T_AB' = 2 * flatMax /\ mcols T_AB' = 2 * flatMax /\
    (forall r c, r < 2 * flatMax -> c < 2 * flatMax ->
       mcoeff T_AB' r c = T_AB_coeffs flatMax AB r c).
Proof.
  intros Hr Hc. unfold Solver.assign_T_AB.
  rewrite set_block_fits by lia. cbn [obind mrows mcols].
  rewrite set_block_fits by (cbn [mrows mcols]; lia). cbn [obind mrows mcols].
  rewrite set_block_fits by (cbn [mrows mcols]; lia). cbn [obind mrows mcols].
  rewrite set_block_fits by (cbn [mrows mcols]; lia).
  eexists. split; [reflexivity|]. cbn [mrows mcols mcoeff].
  split; [assumption|]. split; [assumption|].
  intros r c Hlr Hlc. rewrite Hr, Hc. unfold T_AB_coeffs.
  replace (2 * flatMax - flatMax) with flatMax by lia.
  destruct (Nat.ltb_spec r flatMax), (Nat.ltb_spec c flatMax); decide_in_block; f_equal; lia.
Qed.

(** One iteration of the loop over [j]: block (i, j) of [S] is written, and
    nothing outside it. *)
Lemma populateDirect_block_step (s : Solver.t) (flatMax : nat) (T : Coeffs t_complex)
    (S0 T_AB : Matrix t_complex) (i j : nat) (sci scj : Scatterer.t) :
  let K := length (objects (Solver.geometry s)) in
  objects (Solver.geometry s) !! i = Some sci ->
  objects (Solver.geometry s) !! j = Some scj ->
  mrows S0 = 2 * flatMax * K -> mcols S0 = 2 * flatMax * K ->
  mrows T_AB = 2 * flatMax -> mcols T_AB = 2 * flatMax ->
  exists S1 T_AB',
    Solver.populateDirect_block s flatMax T i (S0, T_AB) j = Ok (S1, T_AB') /\
    mrows S1 = mrows S0 /\ mcols S1 = mcols S0 /\
    mrows T_AB' = 2 * flatMax /\ mcols T_AB' = 2 * flatMax /\
    (forall R Cc, ~ (i * 2 * flatMax <= R < i * 2 * flatMax + 2 * flatMax /\
                     j * 2 * flatMax <= Cc < j * 2 * flatMax + 2 * flatMax) ->
                  mcoeff S1 R Cc = mcoeff S0 R Cc) /\
    (forall r c, r < 2 * flatMax -> c < 2 * flatMax ->
       mcoeff S1 (i * 2 * flatMax + r) (j * 2 * flatMax + c) =
       if i =? j then identity r c
       else mmul (2 * flatMax) (mopp T)
              (T_AB_coeffs flatMax
                 (Coupling (vsub (Scatterer.vR sci) (Scatterer.vR scj))
                           (waveK (Solver.incWave s)) (Solver.nMax s))) r c).
Proof.
  intros K Hi Hj Hrows Hcols HTr HTc.
  assert (HiK : i < K) by (apply lookup_lt_Some in Hi; exact Hi).
  assert (HjK : j < K) by (apply lookup_lt_Some in Hj; exact Hj).
  assert (Hx : i * 2 * flatMax + 2 * flatMax <= 2 * flatMax * K) by nia.
  assert (Hy : j * 2 * flatMax + 2 * flatMax <= 2 * flatMax * K) by nia.
  unfold Solver.populateDirect_block. cbn [fst snd].
  destruct (i =? j) eqn:Eij.
  - apply Nat.eqb_eq in Eij. subst j.
    rewrite set_block_fits by lia. cbn [obind].
    eexists _, _. split; [reflexivity|]. cbn [mrows mcols mcoeff].
    repeat split; try assumption; try reflexivity.
    + intros R Cc Hout. now rewrite in_block_false by lia.
    + intros r c Hr Hc. rewrite in_block_true by lia. f_equal; lia.
  - rewrite (deref_lookup _ _ _ Hi), (deref_lookup _ _ _ Hj). cbn [obind].
    destruct (assign_T_AB_coeffs flatMax
                (Coupling (vsub (Scatterer.vR sci) (Scatterer.vR scj))
                          (waveK (Solver.incWave s)) (Solver.nMax s)) T_AB HTr HTc)
      as (T_AB' & ET & HTr' & HTc' & Hcoeffs).
    rewrite ET. cbn [obind]. rewrite set_block_fits by lia. cbn [obind].
    eexists _, _. split; [reflexivity|]. cbn [mrows mcols mcoeff].
    repeat split; try assumption; try reflexivity.
    + intros R Cc Hout. now rewrite in_block_false by lia.
    + intros r c Hr Hc. rewrite in_block_true by lia.
      replace (i * 2 * flatMax + r - i * 2 * flatMax) with r by lia.
      replace (j * 2 * flatMax + c - j * 2 * flatMax) with c by lia.
      unfold mmul. apply csum_ext. intros t Ht. f_equal. apply Hcoeffs; assumption.
Qed.

(** One iteration of the loop over [i]: block i of [Q] and the row of
    blocks i of [S] are written, and nothing else. *)
Lemma populateDirect_row_step (h : gmap loc (nat -> t_complex)) (s : Solver.t)
    (S0 T_AB : Matrix t_complex) (Q0 : Vector t_complex) (i : nat) (sci : Scatterer.t) :
  let flatMax := max_flat (Solver.nMax s) - 1 in
  let K := length (objects (Solver.geometry s)) in
  objects (Solver.geometry s) !! i = Some sci ->
  mrows S0 = 2 * flatMax * K -> mcols S0 = 2 * flatMax * K ->
  vsize Q0 = 2 * flatMax * K ->
  mrows T_AB = 2 * flatMax -> mcols T_AB = 2 * flatMax ->
  exists S1 Q1 T_AB',
    Solver.populateDirect_row h s flatMax (S0, Q0, T_AB) i = Ok (S1, Q1, T_AB') /\
    mrows S1 = mrows S0 /\ mcols S1 = mcols S0 /\ vsize Q1 = vsize Q0 /\
    mrows T_AB' = 2 * flatMax /\ mcols T_AB' = 2 * flatMax /\
    (forall R Cc, ~ (i * 2 * flatMax <= R < i * 2 * flatMax + 2 * flatMax) ->
                  mcoeff S1 R Cc = mcoeff S0 R Cc) /\
    (forall j scj r c, objects (Solver.geometry s) !! j = Some scj ->
       r < 2 * flatMax -> c < 2 * flatMax ->
       mcoeff S1 (i * 2 * flatMax + r) (j * 2 * flatMax + c) =
       if i =? j then identity r c
       else T_times_T_AB flatMax (Solver.nMax s) (Solver.geometry s) (Solver.incWave s)
                         i sci scj r c).
Proof.
  intros flatMax K Hi Hrows Hcols Hq HTr HTc.
  assert (HiK : i < K) by (apply lookup_lt_Some in Hi; exact Hi).
  unfold Solver.populateDirect_row. cbn [fst snd].
  assert (EQ : exists Q_local, Solver.populateDirect_Q_local h s i = Ok Q_local).
  { unfold Solver.populateDirect_Q_local. destruct (Solver.result_FF s); [eauto|].
    rewrite (deref_lookup _ _ _ Hi). cbn [obind]. eauto. }
  destruct EQ as (Q_local & ->). cbn [obind].
  rewrite set_segment_fits by nia. cbn [obind].
  set (T := getTLocal (Solver.geometry s) (omega (Solver.incWave s)) i (Solver.nMax s)).
  fold K.
  pose (P := fun (k : nat) (st : Matrix t_complex * Matrix t_complex) =>
    mrows st.1 = 2 * flatMax * K /\ mcols st.1 = 2 * flatMax * K /\
    mrows st.2 = 2 * flatMax /\ mcols st.2 = 2 * flatMax /\
    (forall R Cc, ~ (i * 2 * flatMax <= R < i * 2 * flatMax + 2 * flatMax) ->
                  mcoeff st.1 R Cc = mcoeff S0 R Cc) /\
    (forall j scj r c, j < k -> objects (Solver.geometry s) !! j = Some scj ->
       r < 2 * flatMax -> c < 2 * flatMax ->
       mcoeff st.1 (i * 2 * flatMax + r) (j * 2 * flatMax + c) =
       if i =? j then identity r c
       else T_times_T_AB flatMax (Solver.nMax s) (Solver.geometry s) (Solver.incWave s)
                         i sci scj r c)).
  destruct (foldM_seq_total P (Solver.populateDirect_block s flatMax T i) K 0 (S0, T_AB))
    as ([S1 T_AB'] & E & HP).
  - unfold P. cbn [fst snd]. repeat split; try assumption; try lia.
  - intros k [Sk Tk] Hk (Hr0 & Hc0 & HTr0 & HTc0 & Hframe & Hdone). cbn [fst snd] in *.
    assert (is_Some (objects (Solver.geometry s) !! k)) as [sck Hsck]
      by (apply lookup_lt_is_Some; fold K; lia).
    destruct (populateDirect_block_step s flatMax T Sk Tk i k sci sck)
      as (S2 & T2 & E2 & Hr2 & Hc2 & HTr2 & HTc2 & Hframe2 & Hblock2); try assumption.
    exists (S2, T2). split; [exact E2|]. unfold P. cbn [fst snd].
    repeat split; try congruence.
    + intros R Cc Hout. rewrite Hframe2 by lia. apply Hframe. exact Hout.
    + intros j scj r c Hlt Hj Hr Hc. destruct (decide (j = k)) as [->|Hne].
      * rewrite Hblock2 by assumption. assert (scj = sck) by congruence. subst scj.
        reflexivity.
      * rewrite Hframe2 by nia. apply Hdone; try assumption. lia.
  - destruct HP as (Hr1 & Hc1 & HTr1 & HTc1 & Hframe & Hdone). cbn [fst snd] in *.
    rewrite E. cbn [obind fst snd]. eexists _, _, _. split; [reflexivity|].
    cbn [vsize]. repeat split; try congruence.
    + exact Hframe.
    + intros j scj r c Hj Hr Hc. apply Hdone; try assumption.
      apply lookup_lt_Some in Hj. exact Hj.
Qed.

(** The direct population of a system of the right size returns; [S] then
    holds the identity in its diagonal blocks and minus the T-matrix of i
    times the coupling of (i, j) in block (i, j). *)
Lemma populateDirect_blocks (m : Memory) (s : Solver.t) :
  let flatMax := max_flat (Solver.nMax s) - 1 in
  let K := length (objects (Solver.geometry s)) in
  mrows (Solver.S s) = 2 * flatMax * K -> mcols (Solver.S s) = 2 * flatMax * K ->
  vsize (Solver.Q s) = 2 * flatMax * K ->
  exists m' s',
    Solver.populateDirect m s = Ok (m', s') /\
    mrows (Solver.S s') = 2 * flatMax * K /\ mcols (Solver.S s') = 2 * flatMax * K /\
    vsize (Solver.Q s') = 2 * flatMax * K /\
    (forall i j sci scj r c,
       objects (Solver.geometry s) !! i = Some sci ->
       objects (Solver.geometry s) !! j = Some scj ->
       r < 2 * flatMax -> c < 2 * flatMax ->
       mcoeff (Solver.S s') (i * 2 * flatMax + r) (j * 2 * flatMax + c) =
       if i =? j then identity r c
       else T_times_T_AB flatMax (Solver.nMax s) (Solver.geometry s) (Solver.incWave s)
                         i sci scj r c).
Proof.
  intros flatMax K Hrows Hcols Hq. unfold Solver.populateDirect. cbv zeta. fold flatMax K.
  set (h := match Solver.result_FF s with
            | Some r => setSourcesSingle (Solver.geometry s) (Solver.incWave s)
                          (internal_coef (results m r)) (Solver.nMax s) (sources m)
            | None => sources m
            end).
  pose (P := fun (k : nat) (st : Matrix t_complex * Vector t_complex * Matrix t_complex) =>
    mrows st.1.1 = 2 * flatMax * K /\ mcols st.1.1 = 2 * flatMax * K /\
    vsize st.1.2 = 2 * flatMax * K /\
    mrows st.2 = 2 * flatMax /\ mcols st.2 = 2 * flatMax /\
    (forall i j sci scj r c, i < k ->
       objects (Solver.geometry s) !! i = Some sci ->
       objects (Solver.geometry s) !! j = Some scj ->
       r < 2 * flatMax -> c < 2 * flatMax ->
       mcoeff st.1.1 (i * 2 * flatMax + r) (j * 2 * flatMax + c) =
       if i =? j then identity r c
       else T_times_T_AB flatMax (Solver.nMax s) (Solver.geometry s) (Solver.incWave s)
                         i sci scj r c)).
  destruct (foldM_seq_total P (Solver.populateDirect_row h s flatMax) K 0
              (Solver.S s, Solver.Q s, alloc_matrix (2 * flatMax) (2 * flatMax)))
    as ([[S1 Q1] T1] & E & HP).
  - unfold P. cbn [fst snd alloc_matrix mrows mcols]. repeat split; try assumption; try lia.
  - intros k [[Sk Qk] Tk] Hk (Hr0 & Hc0 & Hq0 & HTr0 & HTc0 & Hdone). cbn [fst snd] in *.
    assert (is_Some (objects (Solver.geometry s) !! k)) as [sck Hsck]
      by (apply lookup_lt_is_Some; fold K; lia).
    destruct (populateDirect_row_step h s Sk Tk Qk k sck)
      as (S2 & Q2 & T2 & E2 & Hr2 & Hc2 & Hq2 & HTr2 & HTc2 & Hframe2 & Hrow2);
      try assumption.
    change (max_flat (Solver.nMax s) - 1) with flatMax
      in E2, Hr2, Hc2, Hq2, HTr2, HTc2, Hframe2, Hrow2.
    exists (S2, Q2, T2). split; [exact E2|]. unfold P. cbn [fst snd].
    repeat split; try congruence.
    intros i j sci scj r c Hlt Hi Hj Hr Hc. destruct (decide (i = k)) as [->|Hne].
    + assert (sci = sck) by congruence. subst sci. apply Hrow2; assumption.
    + rewrite Hframe2 by nia. apply Hdone; try assumption. lia.
  - destruct HP as (Hr1 & Hc1 & Hq1 & _ & _ & Hdone). cbn [fst snd] in *.
    rewrite E. cbn [obind fst snd]. eexists _, _. split; [reflexivity|].
    cbn [Solver.set_system Solver.S Solver.Q]. repeat split; try assumption.
    intros i j sci scj r c Hi Hj Hr Hc. apply Hdone; try assumption.
    apply lookup_lt_Some in Hi. exact Hi.
Qed.

End DirectMatrix.

(** ** What a population leaves, in both formulations *)

Section Populations.
Context `{Collaborators}.

(** The direct population of scatterers that carry the solver's degree. *)
Lemma populate_direct_system (m : Memory) (s : Solver.t) :
  let flatMax := max_flat (Solver.nMax s) - 1 in
  let K := length (objects (Solver.geometry s)) in
  Solver.solverMethod s <> O3DSolverIndirect ->
  Forall (fun sc => Scatterer.nMax sc = Solver.nMax s) (objects (Solver.geometry s)) ->
  exists m' s',
    Solver.populate m s = Ok (m', s') /\
    mrows (Solver.S s') = 2 * flatMax * K /\ mcols (Solver.S s') = 2 * flatMax * K /\
    vsize (Solver.Q s') = 2 * flatMax * K /\
    (forall i j sci scj r c,
       objects (Solver.geometry s) !! i = Some sci ->
       objects (Solver.geometry s) !! j = Some scj ->
       r < 2 * flatMax -> c < 2 * flatMax ->
       mcoeff (Solver.S s') (i * 2 * flatMax + r) (j * 2 * flatMax + c) =
       if i =? j then identity r c
       else T_times_T_AB flatMax (Solver.nMax s) (Solver.geometry s) (Solver.incWave s)
                         i sci scj r c).
Proof.
  intros flatMax K Hmethod Hsame. unfold Solver.populate.
  destruct (Z.eqb_spec (Solver.solverMethod s) O3DSolverIndirect) as [|_]; [contradiction|].
  assert (Hsize : scatterer_size (Solver.geometry s) = 2 * flatMax * K).
  { unfold scatterer_size, K, flatMax.
    destruct (objects (Solver.geometry s)) as [|front rest]; [simpl; lia|].
    inversion Hsame as [|? ? Hfront _]. rewrite Hfront. reflexivity. }
  destruct (populateDirect_blocks m
              (Solver.set_system s
                 (resize (Solver.S s) (scatterer_size (Solver.geometry s))
                         (scatterer_size (Solver.geometry s)))
                 (vresize (Solver.Q s) (scatterer_size (Solver.geometry s)))))
    as (m' & s' & E & Hr & Hc & Hq & Hblocks).
  - cbn [Solver.set_system Solver.S Solver.geometry Solver.nMax]. rewrite resize_rows.
    exact Hsize.
  - cbn [Solver.set_system Solver.S Solver.geometry Solver.nMax]. rewrite resize_cols.
    exact Hsize.
  - cbn [Solver.set_system Solver.Q Solver.geometry Solver.nMax]. rewrite vresize_size.
    exact Hsize.
  - exists m', s'. split; [exact E|].
    cbn [Solver.set_system Solver.geometry Solver.nMax Solver.incWave] in Hr, Hc, Hq, Hblocks.
    repeat split; assumption.
Qed.

(** The indirect population of one scatterer or more, all of one degree,
    whatever the degree of the solver. *)
Lemma populate_indirect_system (m : Memory) (s : Solver.t) (nMax : nat) :
  let n := max_flat nMax - 1 in
  let K := length (objects (Solver.geometry s)) in
  Solver.solverMethod s = O3DSolverIndirect ->
  objects (Solver.geometry s) <> [] ->
  Forall (fun sc => Scatterer.nMax sc = nMax) (objects (Solver.geometry s)) ->
  exists m' s',
    Solver.populate m s = Ok (m', s') /\
    preconditioned_scattering_matrix (Solver.geometry s) (Solver.incWave s)
      = Ok (Solver.S s') /\
    mrows (Solver.S s') = 2 * n * K /\ mcols (Solver.S s') = 2 * n * K /\
    vsize (Solver.Q s') = 2 * n * K /\
    (forall i j sci scj r c,
       objects (Solver.geometry s) !! i = Some sci ->
       objects (Solver.geometry s) !! j = Some scj ->
       r < 2 * n -> c < 2 * n ->
       mcoeff (Solver.S s') (2 * n * i + r) (2 * n * j + c) =
       if i =? j then identity r c
       else coupling_times_T n nMax (bground (Solver.geometry s)) (Solver.incWave s)
                             sci scj r c).
Proof.
  intros n K Hmethod Hobjs Hsame. unfold Solver.populate. rewrite Hmethod, Z.eqb_refl.
  unfold Solver.populateIndirect.
  cbn [Solver.set_system Solver.result_FF Solver.geometry Solver.incWave].
  destruct (preconditioned_scattering_matrix_blocks (Solver.geometry s) (Solver.incWave s)
              _ Hsame) as (M & EM & Hr & Hc & Hblocks).
  destruct (Solver.result_FF s) as [r|].
  - destruct (local_source_vector_blocks (sources m) (Solver.geometry s) (Solver.incWave s)
                (internal_coef (results m r)) _ Hobjs Hsame) as (h' & v & Ev & Hv & _).
    rewrite Ev, EM. cbn [obind]. eexists _, _. split; [reflexivity|].
    cbn [Solver.set_system Solver.S Solver.Q snd]. repeat split; assumption.
  - destruct (source_vector_blocks (Solver.geometry s) (Solver.incWave s) _ Hobjs Hsame)
      as (v & Ev & Hv & _).
    rewrite Ev, EM. cbn [obind]. eexists _, _. split; [reflexivity|].
    cbn [Solver.set_system Solver.S Solver.Q]. repeat split; assumption.
Qed.

Lemma population_degree_indirect (s : Solver.t) (sc : Scatterer.t) :
  Solver.solverMethod s = O3DSolverIndirect -> population_degree s sc = Scatterer.nMax sc.
Proof. intros E. unfold population_degree. rewrite E, Z.eqb_refl. reflexivity. Qed.

Lemma population_degree_direct (s : Solver.t) (sc : Scatterer.t) :
  Solver.solverMethod s <> O3DSolverIndirect -> population_degree s sc = Solver.nMax s.
Proof.
  intros E. unfold population_degree.
  destruct (Z.eqb_spec (Solver.solverMethod s) O3DSolverIndirect); [contradiction | reflexivity].
Qed.

Lemma population_degree_same (s : Solver.t) (i : nat) (sc : Scatterer.t) :
  Forall (fun sc => Scatterer.nMax sc = Solver.nMax s) (objects (Solver.geometry s)) ->
  objects (Solver.geometry s) !! i = Some sc ->
  population_degree s sc = Solver.nMax s.
Proof.
  intros Hsame Hi. unfold population_degree. rewrite Forall_lookup in Hsame.
  rewrite (Hsame i sc Hi). destruct (_ =? _)%Z; reflexivity.
Qed.

(** The population of scatterers that carry the solver's degree, of which
    there is one or more in the indirect formulation: it returns, S is
    square and Q has its size; S holds the identity in its diagonal blocks
    and, in block (i, j), the product of its formulation; the sources are
    set in memory when a first-harmonic result is held; and block i of Q
    holds the incoming coefficients of scatterer i, read from that memory
    when a first-harmonic result is held, with the local T-matrix applied in
    the direct formulation. *)
Lemma populate_system (m : Memory) (s : Solver.t) :
  let B := max_flat (Solver.nMax s) - 1 in
  let K := length (objects (Solver.geometry s)) in
  (Solver.solverMethod s = O3DSolverIndirect -> objects (Solver.geometry s) <> []) ->
  Forall (fun sc => Scatterer.nMax sc = Solver.nMax s) (objects (Solver.geometry s)) ->
  exists m' s',
    Solver.populate m s = Ok (m', s') /\
    mrows (Solver.S s') = 2 * B * K /\ mcols (Solver.S s') = 2 * B * K /\
    vsize (Solver.Q s') = 2 * B * K /\
    (forall i j sci scj r c,
       objects (Solver.geometry s) !! i = Some sci ->
       objects (Solver.geometry s) !! j = Some scj ->
       r < 2 * B -> c < 2 * B ->
       mcoeff (Solver.S s') (2 * B * i + r) (2 * B * j + c) =
       if i =? j then identity r c
       else if (Solver.solverMethod s =? O3DSolverIndirect)%Z
            then coupling_times_T B (Solver.nMax s) (bground (Solver.geometry s))
                                  (Solver.incWave s) sci scj r c
            else T_times_T_AB B (Solver.nMax s) (Solver.geometry s) (Solver.incWave s)
                              i sci scj r c) /\
    match Solver.result_FF s with
    | Some p =>
        sources m' = setSourcesSingle (Solver.geometry s) (Solver.incWave s)
                                      (internal_coef (results m p)) (Solver.nMax s)
                                      (sources m)
    | None => m' = m
    end /\
    (forall i sci t,
       objects (Solver.geometry s) !! i = Some sci -> t < 2 * B ->
       vcoeff (Solver.Q s') (2 * B * i + t) =
       let incoming :=
         match Solver.result_FF s with
         | Some _ => getSourceLocal (Solver.geometry s) (sources m') i (Solver.incWave s)
                                    (Solver.nMax s)
         | None => getIncLocal (Solver.incWave s) (Scatterer.vR sci) (Solver.nMax s)
         end in
       if (Solver.solverMethod s =? O3DSolverIndirect)%Z
       then incoming t
       else mvmul (2 * B) (getTLocal (Solver.geometry s) (omega (Solver.incWave s)) i
                                     (Solver.nMax s)) incoming t).
Proof.
  intros B K Hobjs Hsame.
  assert (Hsystem : exists m' s',
    Solver.populate m s = Ok (m', s') /\
    mrows (Solver.S s') = 2 * B * K /\ mcols (Solver.S s') = 2 * B * K /\
    vsize (Solver.Q s') = 2 * B * K /\
    (forall i j sci scj r c,
       objects (Solver.geometry s) !! i = Some sci ->
       objects (Solver.geometry s) !! j = Some scj ->
       r < 2 * B -> c < 2 * B ->
       mcoeff (Solver.S s') (2 * B * i + r) (2 * B * j + c) =
       if i =? j then identity r c
       else if (Solver.solverMethod s =? O3DSolverIndirect)%Z
            then coupling_times_T B (Solver.nMax s) (bground (Solver.geometry s))
                                  (Solver.incWave s) sci scj r c
            else T_times_T_AB B (Solver.nMax s) (Solver.geometry s) (Solver.incWave s)
                              i sci scj r c)).
  { destruct (Z.eqb_spec (Solver.solverMethod s) O3DSolverIndirect) as [Hi|Hd].
    - destruct (populate_indirect_system m s _ Hi (Hobjs Hi) Hsame)
        as (m' & s' & E & _ & Hr & Hc & Hq & Hblocks).
      exists m', s'. repeat split; assumption.
    - destruct (populate_direct_system m s Hd Hsame) as (m' & s' & E & Hr & Hc & Hq & Hblocks).
      exists m', s'. repeat split; try assumption.
      intros i j sci scj r c Hi Hj Hr0 Hc0.
      replace (2 * B * i + r) with (i * 2 * B + r) by lia.
      replace (2 * B * j + c) with (j * 2 * B + c) by lia.
      apply Hblocks; assumption. }
  destruct Hsystem as (m' & s' & E & Hr & Hc & Hq & Hblocks).
  exists m', s'. split; [exact E|]. repeat split; try assumption.
  - pose proof (populate_sources _ _ _ _ E) as Hsrc.
    destruct (Solver.result_FF s) as [p|]; [|exact Hsrc].
    destruct (objects (Solver.geometry s)) as [|front rest] eqn:Eobjs.
    + subst m'. unfold setSourcesSingle. rewrite Eobjs. reflexivity.
    + rewrite Hsrc. f_equal. rewrite <- Eobjs in Hsame.
      apply (population_degree_same s 0 front Hsame). rewrite Eobjs. reflexivity.
  - intros i sci t Hi Ht.
    pose proof (population_degree_same s i sci Hsame Hi) as Hdeg.
    pose proof (populate_Q _ _ _ _ E i sci t Hi) as HQ.
    rewrite Hdeg in HQ. fold B in HQ. rewrite (HQ Ht).
    unfold Q_block, incoming_block. rewrite Hdeg. fold B. cbv zeta.
    destruct (_ =? _)%Z; reflexivity.
Qed.

End Populations.

(** ** C9: re-population by [SH] *)

Section SecondHarmonicSetter.
Context `{Collaborators}.

(** C9: [SH] called with the pointer the solver already holds returns
    without re-populating: memory, S and Q are what they were.  Called with
    a different pointer it stores the pointer and re-populates.  For
    scatterers that carry the solver's degree (one or more of them in the
    indirect formulation) the re-population returns, the solver holds the
    new pointer, and S and Q are rebuilt: S is square of size 2 B K with the
    identity in its diagonal blocks and the product of its formulation in
    block (i, j); for the pointer of a first-harmonic result the source
    buffers are set from the internal coefficients of that result and every
    block of Q is built from the sources read back from them, for the null
    pointer nothing is written and every block of Q is built from the
    excitation; in the direct formulation the local T-matrix is applied to
    the block. *)
Theorem SH_repopulates_on_new_pointer (m : Memory) (r : option loc) (s : Solver.t) :
  let B := max_flat (Solver.nMax s) - 1 in
  let K := length (objects (Solver.geometry s)) in
  (r = Solver.result_FF s -> Solver.SH m r s = Ok (m, s)) /\
  (r <> Solver.result_FF s ->
   Solver.SH m r s = Solver.populate m (Solver.set_result_FF s r) /\
   ((Solver.solverMethod s = O3DSolverIndirect -> objects (Solver.geometry s) <> []) ->
    Forall (fun sc => Scatterer.nMax sc = Solver.nMax s) (objects (Solver.geometry s)) ->
    exists m' s',
      Solver.SH m r s = Ok (m', s') /\
      Solver.result_FF s' = r /\
      Solver.geometry s' = Solver.geometry s /\
      mrows (Solver.S s') = 2 * B * K /\ mcols (Solver.S s') = 2 * B * K /\
      vsize (Solver.Q s') = 2 * B * K /\
      (forall i j sci scj r0 c,
         objects (Solver.geometry s) !! i = Some sci ->
         objects (Solver.geometry s) !! j = Some scj ->
         r0 < 2 * B -> c < 2 * B ->
         mcoeff (Solver.S s') (2 * B * i + r0) (2 * B * j + c) =
         if i =? j then identity r0 c
         else if (Solver.solverMethod s =? O3DSolverIndirect)%Z
              then coupling_times_T B (Solver.nMax s) (bground (Solver.geometry s))
                                    (Solver.incWave s) sci scj r0 c
              else T_times_T_AB B (Solver.nMax s) (Solver.geometry s) (Solver.incWave s)
                                i sci scj r0 c) /\
      match r with
      | Some p =>
          sources m' = setSourcesSingle (Solver.geometry s) (Solver.incWave s)
                                        (internal_coef (results m p)) (Solver.nMax s)
                                        (sources m)
      | None => m' = m
      end /\
      (forall i sci t,
         objects (Solver.geometry s) !! i = Some sci -> t < 2 * B ->
         vcoeff (Solver.Q s') (2 * B * i + t) =
         let incoming :=
           match r with
           | Some _ => getSourceLocal (Solver.geometry s) (sources m') i (Solver.incWave s)
                                      (Solver.nMax s)
           | None => getIncLocal (Solver.incWave s) (Scatterer.vR sci) (Solver.nMax s)
           end in
         if (Solver.solverMethod s =? O3DSolverIndirect)%Z
         then incoming t
         else mvmul (2 * B) (getTLocal (Solver.geometry s) (omega (Solver.incWave s)) i
                                       (Solver.nMax s)) incoming t))).
Proof.
  intros B K. unfold Solver.SH. split.
  - intros ->. destruct (decide _) as [_|Hne]; [reflexivity | contradiction].
  - intros Hne. destruct (decide (r = Solver.result_FF s)) as [Heq|_]; [contradiction|].
    split; [reflexivity|]. intros Hobjs Hsame.
    destruct (populate_system m (Solver.set_result_FF s r) Hobjs Hsame)
      as (m' & s' & E & Hr & Hc & Hq & Hblocks & Hsrc & HQ).
    pose proof (populate_frame _ _ _ _ E) as (Hg & _ & _ & Hres & _).
    cbn [Solver.set_result_FF Solver.geometry Solver.incWave Solver.nMax Solver.result_FF
         Solver.solverMethod] in *.
    exists m', s'. repeat split; assumption.
Qed.

End SecondHarmonicSetter.

(** ** Accesses that raise no exception *)

Lemma throws_bind {A B : Type} (o : outcome A) (k : A -> outcome B) :
  throws o = false -> (forall a, throws (k a) = false) -> throws (obind o k) = false.
Proof. destruct o as [a| |]; simpl; intros Ho Hk; [apply Hk | discriminate | reflexivity]. Qed.

Section NoThrow.
Context `{Collaborators}.

Lemma throws_set_segment (v : Vector t_complex) (x r : nat) (w : nat -> t_complex) :
  throws (set_segment v x r w) = false.
Proof. unfold set_segment. destruct (_ <=? _); reflexivity. Qed.

Lemma throws_segment (v : Vector t_complex) (x r : nat) : throws (segment v x r) = false.
Proof. unfold segment. destruct (_ <=? _); reflexivity. Qed.

End NoThrow.

(** ** The two formulations at the level of [populate] *)

Section PopulationOutcomes.
Context `{Collaborators}.

(** X3: in the direct formulation, when every scatterer carries the degree
    of the solver, the population returns; S and Q have size 2 B K with
    B = max_flat(nMax) - 1; every diagonal block of S is the identity and
    block (i, j) for distinct i and j is minus the local T-matrix of i
    multiplied on the right by the 2 x 2 arrangement of the coupling for
    the displacement center_i - center_j. *)
Theorem direct_matrix_blocks (m : Memory) (s : Solver.t) :
  let flatMax := max_flat (Solver.nMax s) - 1 in
  let K := length (objects (Solver.geometry s)) in
  Solver.solverMethod s <> O3DSolverIndirect ->
  Forall (fun sc => Scatterer.nMax sc = Solver.nMax s) (objects (Solver.geometry s)) ->
  exists m' s',
    Solver.populate m s = Ok (m', s') /\
    mrows (Solver.S s') = 2 * flatMax * K /\ mcols (Solver.S s') = 2 * flatMax * K /\
    vsize (Solver.Q s') = 2 * flatMax * K /\
    (forall i j sci scj r c,
       objects (Solver.geometry s) !! i = Some sci ->
       objects (Solver.geometry s) !! j = Some scj ->
       r < 2 * flatMax -> c < 2 * flatMax ->
       mcoeff (Solver.S s') (i * 2 * flatMax + r) (j * 2 * flatMax + c) =
       if i =? j then identity r c
       else T_times_T_AB flatMax (Solver.nMax s) (Solver.geometry s) (Solver.incWave s)
                         i sci scj r c).
Proof. exact (populate_direct_system m s). Qed.

(** X4: in the indirect formulation a population returns exactly when
    there is a scatterer and all scatterers carry one degree, whatever the
    degree of the solver; with scatterers of different degrees it throws the
    configuration error; with no scatterer it fails the size assertion of
    the empty source vector. *)
Theorem indirect_population_outcome (m : Memory) (s : Solver.t) :
  Solver.solverMethod s = O3DSolverIndirect ->
  ((exists ms, Solver.populate m s = Ok ms) <->
   objects (Solver.geometry s) <> [] /\
   exists nMax, Forall (fun sc => Scatterer.nMax sc = nMax) (objects (Solver.geometry s))) /\
  (objects (Solver.geometry s) = [] -> Solver.populate m s = Abort) /\
  (~ (exists nMax,
        Forall (fun sc => Scatterer.nMax sc = nMax) (objects (Solver.geometry s))) ->
   Solver.populate m s = Throw harmonics_error).
Proof.
  intros Hmethod.
  assert (Hempty : objects (Solver.geometry s) = [] -> Solver.populate m s = Abort).
  { intros Hnil. unfold Solver.populate. rewrite Hmethod, Z.eqb_refl.
    unfold Solver.populateIndirect.
    cbn [Solver.set_system Solver.result_FF Solver.geometry Solver.incWave].
    unfold local_source_vector, source_vector. rewrite Hnil.
    destruct (Solver.result_FF s); reflexivity. }
  split; [split|split].
  - intros ([m' s'] & E).
    destruct (objects (Solver.geometry s)) as [|front rest] eqn:Eobjs.
    + rewrite Hempty in E by reflexivity. discriminate.
    + split; [discriminate|]. exists (Scatterer.nMax front). rewrite <- Eobjs.
      apply (populate_indirect_same_nMax m m' s s' front E Hmethod).
      rewrite Eobjs. reflexivity.
  - intros (Hobjs & nMax & Hsame).
    destruct (populate_indirect_system m s nMax Hmethod Hobjs Hsame) as (m' & s' & E & _).
    eauto.
  - exact Hempty.
  - intros Hmixed.
    destruct (objects (Solver.geometry s)) as [|front rest] eqn:Eobjs.
    + exfalso. apply Hmixed. exists 0. constructor.
    + destruct (same_nMax (Scatterer.nMax front) (front :: rest)) eqn:Esame.
      * exfalso. apply Hmixed. exists (Scatterer.nMax front).
        apply same_nMax_Forall. exact Esame.
      * unfold Solver.populate. rewrite Hmethod, Z.eqb_refl.
        unfold Solver.populateIndirect.
        cbn [Solver.set_system Solver.result_FF Solver.geometry Solver.incWave].
        destruct (Solver.result_FF s) as [r|].
        -- unfold local_source_vector. rewrite Eobjs, Esame. reflexivity.
        -- unfold source_vector. rewrite Eobjs, Esame. reflexivity.
Qed.

(** X5: [source_vector] on one scatterer or more, all of one degree,
    returns a vector of size 2 B K whose block i holds the incoming
    excitation at the centre of scatterer i, with no local T-matrix
    applied; on no scatterer it fails the size assertion of the vector it
    constructs. *)
Theorem source_vector_incoming_blocks (geometry : Geometry) (incWave : Excitation)
    (nMax : nat) :
  let flatMax := max_flat nMax - 1 in
  let K := length (objects geometry) in
  (objects geometry = [] -> source_vector geometry incWave = Abort) /\
  (objects geometry <> [] ->
   Forall (fun sc => Scatterer.nMax sc = nMax) (objects geometry) ->
   exists v,
     source_vector geometry incWave = Ok v /\
     vsize v = 2 * flatMax * K /\
     (forall i sci t, objects geometry !! i = Some sci -> t < 2 * flatMax ->
        vcoeff v (2 * flatMax * i + t) = getIncLocal incWave (Scatterer.vR sci) nMax t)).
Proof.
  intros flatMax K. split.
  - intros Hnil. unfold source_vector. rewrite Hnil. reflexivity.
  - exact (source_vector_blocks geometry incWave nMax).
Qed.

(** X6: [local_source_vector] on one scatterer or more, all of one degree,
    first sets the sources of every scatterer in memory, from the given
    first-harmonic coefficients, and returns a vector of size 2 B K whose
    block i holds the local sources of scatterer i as read back from that
    memory; on no scatterer it fails the size assertion of the vector it
    constructs. *)
Theorem local_source_vector_source_blocks (h : gmap loc (nat -> t_complex))
    (geometry : Geometry) (incWave : Excitation) (input : Vector t_complex) (nMax : nat) :
  let flatMax := max_flat nMax - 1 in
  let K := length (objects geometry) in
  (objects geometry = [] -> local_source_vector h geometry incWave input = Abort) /\
  (objects geometry <> [] ->
   Forall (fun sc => Scatterer.nMax sc = nMax) (objects geometry) ->
   exists v,
     local_source_vector h geometry incWave input
       = Ok (setSourcesSingle geometry incWave input nMax h, v) /\
     vsize v = 2 * flatMax * K /\
     (forall i t, i < K -> t < 2 * flatMax ->
        vcoeff v (2 * flatMax * i + t) =
        getSourceLocal geometry (setSourcesSingle geometry incWave input nMax h)
                       i incWave nMax t)).
Proof.
  intros flatMax K. split.
  - intros Hnil. unfold local_source_vector. rewrite Hnil. reflexivity.
  - intros Hobjs Hsame.
    destruct (local_source_vector_blocks h geometry incWave input nMax Hobjs Hsame)
      as (h' & v & E & Hv & Hblocks).
    assert (Hh : h' = setSourcesSingle geometry incWave input nMax h).
    { unfold local_source_vector in E.
      destruct (objects geometry) as [|front rest] eqn:Eobjs; [contradiction|].
      assert (Hfront : Scatterer.nMax front = nMax) by (inversion Hsame; assumption).
      rewrite Hfront in E. destruct (same_nMax nMax (front :: rest)); [|discriminate].
      apply obind_Ok_inv in E as (r & _ & E). injection E as <- _. reflexivity. }
    subst h'. exists v. repeat split; assumption.
Qed.

End PopulationOutcomes.

(** ** From the solved vector to the scattered and internal coefficients *)

(** A loop one of whose iterations fails on an access out of bounds in
    every state the loop can be in ends in that failure, when no iteration
    throws. *)
Lemma foldM_seq_Abort {A : Type} (P : A -> Prop) (f : A -> nat -> outcome A) (k : nat) :
  (forall a j a', P a -> f a j = Ok a' -> P a') ->
  (forall a, P a -> f a k = Abort) ->
  (forall a j, throws (f a j) = false) ->
  forall len start a, P a -> start <= k < start + len -> foldM f (seq start len) a = Abort.
Proof.
  intros Hinv Hk Hf. induction len as [|len IH]; intros start a HP Hrange; [lia|].
  simpl. destruct (decide (start = k)) as [->|Hne].
  - rewrite Hk by exact HP. reflexivity.
  - pose proof (Hf a start) as Hthrow. pose proof (Hinv a start) as Hnext.
    destruct (f a start) as [a1|w|]; simpl in *; [|discriminate|reflexivity].
    apply IH; [apply (Hnext a1 HP eq_refl) | lia].
Qed.

Section Coefficients.
Context `{Collaborators}.

Lemma convertIndirect_returns (s : Solver.t) (X : Vector t_complex) :
  let N := 2 * (max_flat (Solver.nMax s) - 1) in
  let K := length (objects (Solver.geometry s)) in
  K * N <= vsize X ->
  exists R,
    Solver.convertIndirect s X = Ok R /\
    vsize R = N * K /\
    (forall i t, i < K -> t < N ->
       vcoeff R (i * N + t) =
       mvmul N (getTLocal (Solver.geometry s) (omega (Solver.incWave s)) i (Solver.nMax s))
             (fun u => vcoeff X (i * N + u)) t).
Proof.
  intros N K Hsize. unfold Solver.convertIndirect. fold N K.
  pose (P := fun (k : nat) (v : Vector t_complex) =>
    vsize v = N * K /\
    (forall i t, i < k -> t < N ->
       vcoeff v (i * N + t) =
       mvmul N (getTLocal (Solver.geometry s) (omega (Solver.incWave s)) i (Solver.nMax s))
             (fun u => vcoeff X (i * N + u)) t)).
  destruct (foldM_seq_total P
              (fun result i =>
                 (seg <- segment X (i * N) N ;;
                  set_segment result (i * N) N
                    (mvmul N (getTLocal (Solver.geometry s) (omega (Solver.incWave s)) i
                                        (Solver.nMax s)) seg)))
              K 0 (alloc_vector (N * K))) as (v & E & Hv & Hblocks).
  - unfold P. cbn [alloc_vector vsize]. split; [reflexivity | lia].
  - intros k v0 Hk (Hv0 & Hdone). unfold segment.
    assert (Hfit : (k * N + N <=? vsize X) = true) by (apply Nat.leb_le; nia).
    rewrite Hfit. cbn [obind]. rewrite set_segment_fits by nia.
    eexists. split; [reflexivity|]. unfold P. cbn [vsize vcoeff]. split; [assumption|].
    intros i t Hi Ht. destruct (decide (i = k)) as [->|Hne].
    + rewrite in_segment_true by lia. f_equal. lia.
    + rewrite in_segment_false by nia. apply Hdone; lia.
  - exists v. repeat split; assumption.
Qed.

Lemma solveInternal_returns (s : Solver.t) (X_sca : Vector t_complex) :
  let N := 2 * (max_flat (Solver.nMax s) - 1) in
  let K := length (objects (Solver.geometry s)) in
  K * N <= vsize X_sca ->
  exists X_int,
    Solver.solveInternal s X_sca = Ok X_int /\
    vsize X_int = vsize X_sca /\
    (forall j t, j < K -> t < N ->
       vcoeff X_int (j * N + t) =
       cmul (getIaux (Solver.geometry s) (omega (Solver.incWave s)) j (Solver.nMax s) t)
            (vcoeff X_sca (j * N + t))).
Proof.
  intros N K Hsize. unfold Solver.solveInternal. fold N K.
  pose (P := fun (k : nat) (v : Vector t_complex) =>
    vsize v = vsize X_sca /\
    (forall j t, j < k -> t < N ->
       vcoeff v (j * N + t) =
       getIaux (Solver.geometry s) (omega (Solver.incWave s)) j (Solver.nMax s) t)).
  destruct (foldM_seq_total P
              (fun result j =>
                 set_segment result (j * N) N
                   (getIaux (Solver.geometry s) (omega (Solver.incWave s)) j (Solver.nMax s)))
              K 0 (alloc_vector (vsize X_sca))) as (v & E & Hv & Hblocks).
  - unfold P. cbn [alloc_vector vsize]. split; [reflexivity | lia].
  - intros k v0 Hk (Hv0 & Hdone).
    rewrite set_segment_fits by nia. eexists. split; [reflexivity|].
    unfold P. cbn [vsize vcoeff]. split; [assumption|].
    intros j t Hj Ht. destruct (decide (j = k)) as [->|Hne].
    + rewrite in_segment_true by lia. f_equal. lia.
    + rewrite in_segment_false by nia. apply Hdone; lia.
  - rewrite E. cbn [obind]. eexists. split; [reflexivity|].
    cbn [array_mul vsize vcoeff]. split; [assumption|].
    intros j t Hj Ht. rewrite Hblocks by assumption. reflexivity.
Qed.

(** X7: [convertIndirect] on a vector that holds a block of
    N = 2 (max_flat(nMax) - 1) coefficients for each of the K scatterers
    returns a vector of size N K whose block i is the local T-matrix of
    scatterer i applied to block i of the argument. *)
Theorem convertIndirect_blocks (s : Solver.t) (X : Vector t_complex) :
  let N := 2 * (max_flat (Solver.nMax s) - 1) in
  let K := length (objects (Solver.geometry s)) in
  K * N <= vsize X ->
  exists R,
    Solver.convertIndirect s X = Ok R /\
    vsize R = N * K /\
    (forall i t, i < K -> t < N ->
       vcoeff R (i * N + t) =
       mvmul N (getTLocal (Solver.geometry s) (omega (Solver.incWave s)) i (Solver.nMax s))
             (fun u => vcoeff X (i * N + u)) t).
Proof. exact (convertIndirect_returns s X). Qed.

(** X8: on a vector shorter than K blocks of N coefficients neither
    [convertIndirect] nor [solveInternal] returns: the first reads a segment
    past the end of its argument, the second has a scatterer's coefficients
    written past the end of the buffer it allocated. *)
Theorem short_vector_is_out_of_bounds (s : Solver.t) (X : Vector t_complex) :
  let N := 2 * (max_flat (Solver.nMax s) - 1) in
  let K := length (objects (Solver.geometry s)) in
  vsize X < K * N ->
  Solver.convertIndirect s X = Abort /\ Solver.solveInternal s X = Abort.
Proof.
  intros N K Hshort.
  assert (HK : 0 < K) by (destruct K; lia).
  split.
  - unfold Solver.convertIndirect. fold N K.
    apply (foldM_seq_Abort (fun _ => True) _ (K - 1)); [auto | | | exact I | lia].
    + intros a _. unfold segment.
      assert (Hfit : ((K - 1) * N + N <=? vsize X) = false) by (apply Nat.leb_gt; nia).
      rewrite Hfit. reflexivity.
    + intros a j. apply throws_bind; [apply throws_segment | intros seg; apply throws_set_segment].
  - unfold Solver.solveInternal. fold N K.
    rewrite (foldM_seq_Abort (fun v => vsize v = vsize X) _ (K - 1)); [reflexivity| | | | |lia].
    + intros a j a' Ha E. apply set_segment_Ok_inv in E as (_ & ->). exact Ha.
    + intros a Ha. unfold set_segment.
      assert (Hfit : ((K - 1) * N + N <=? vsize a) = false) by (apply Nat.leb_gt; nia).
      rewrite Hfit. reflexivity.
    + intros a j. apply throws_set_segment.
    + reflexivity.
Qed.

(** [solve] on a system whose S is square of size N K and whose Q has that
    size. *)
Lemma solve_sized (s : Solver.t) :
  let N := 2 * (max_flat (Solver.nMax s) - 1) in
  let K := length (objects (Solver.geometry s)) in
  mrows (Solver.S s) = N * K -> mcols (Solver.S s) = N * K -> vsize (Solver.Q s) = N * K ->
  Solver.context_is_valid s = true ->
  let x := if scalapack_selected
           then (scalapack_solve (Solver.S s) (Solver.Q s)).1
           else qr_solve (Solver.S s) (Solver.Q s) in
  if scalapack_selected && negb ((scalapack_solve (Solver.S s) (Solver.Q s)).2 =? 0)%Z
  then Solver.solve s = Throw Solver.linear_system_error
  else
    exists X_sca X_int,
      Solver.solve s = Ok (X_sca, X_int) /\
      vsize X_sca = N * K /\ vsize X_int = N * K /\
      (forall i t, i < K -> t < N ->
         vcoeff X_sca (i * N + t) =
         if (Solver.solverMethod s =? O3DSolverIndirect)%Z
         then mvmul N (getTLocal (Solver.geometry s) (omega (Solver.incWave s)) i
                                 (Solver.nMax s))
                    (fun u => x (i * N + u)) t
         else x (i * N + t)) /\
      (forall j t, j < K -> t < N ->
         vcoeff X_int (j * N + t) =
         cmul (getIaux (Solver.geometry s) (omega (Solver.incWave s)) j (Solver.nMax s) t)
              (vcoeff X_sca (j * N + t))).
Proof.
  intros N K Hr Hc Hq Hctx x.
  assert (Hconvert : forall X : Vector t_complex,
            vsize X = N * K ->
            exists X_sca X_int,
              (X_sca <- (if (Solver.solverMethod s =? O3DSolverIndirect)%Z
                         then Solver.convertIndirect s X
                         else Ok X) ;;
               X_int <- Solver.solveInternal s X_sca ;;
               Ok (X_sca, X_int)) = Ok (X_sca, X_int) /\
              vsize X_sca = N * K /\ vsize X_int = N * K /\
              (forall i t, i < K -> t < N ->
                 vcoeff X_sca (i * N + t) =
                 if (Solver.solverMethod s =? O3DSolverIndirect)%Z
                 then mvmul N (getTLocal (Solver.geometry s) (omega (Solver.incWave s)) i
                                         (Solver.nMax s))
                            (fun u => vcoeff X (i * N + u)) t
                 else vcoeff X (i * N + t)) /\
              (forall j t, j < K -> t < N ->
                 vcoeff X_int (j * N + t) =
                 cmul (getIaux (Solver.geometry s) (omega (Solver.incWave s)) j
                               (Solver.nMax s) t)
                      (vcoeff X_sca (j * N + t)))).
  { intros X HX. destruct (Solver.solverMethod s =? O3DSolverIndirect)%Z.
    - destruct (convertIndirect_returns s X) as (X_sca & E & Hsize & Hblocks).
      { fold N K. lia. }
      fold N K in Hsize, Hblocks. rewrite E. cbn [obind].
      destruct (solveInternal_returns s X_sca) as (X_int & Ei & Hisize & Hiblocks).
      { fold N K. lia. }
      fold N K in Hiblocks. rewrite Ei. cbn [obind].
      exists X_sca, X_int. repeat split; try assumption; try lia.
    - cbn [obind].
      destruct (solveInternal_returns s X) as (X_int & Ei & Hisize & Hiblocks).
      { fold N K. lia. }
      fold N K in Hiblocks. rewrite Ei. cbn [obind].
      exists X, X_int. repeat split; try assumption; try lia. }
  unfold Solver.solve. rewrite Hctx. cbn [negb].
  unfold Solver.solveLinearSystem, Solver.solveLinearSystemScalapack. subst x.
  assert (Hrows : (mrows (Solver.S s) =? vsize (Solver.Q s)) = true)
    by (apply Nat.eqb_eq; lia).
  destruct scalapack_selected; cbn [andb]; rewrite Hrows.
  - cbv zeta. destruct (_ =? 0)%Z; cbn [negb obind]; [|reflexivity].
    destruct (Hconvert {| vsize := vsize (Solver.Q s);
                          vcoeff := (scalapack_solve (Solver.S s) (Solver.Q s)).1 |})
      as (X_sca & X_int & E & H1 & H2 & H3 & H4); [exact Hq|].
    exists X_sca, X_int. repeat split; assumption.
  - cbn [obind].
    destruct (Hconvert {| vsize := mcols (Solver.S s);
                          vcoeff := qr_solve (Solver.S s) (Solver.Q s) |})
      as (X_sca & X_int & E & H1 & H2 & H3 & H4); [exact Hc|].
    exists X_sca, X_int. repeat split; assumption.
Qed.


End Coefficients.

(** ** Repeating operations of the facade *)

Section Repetition.
Context `{Collaborators}.

(** X11: [SH] is idempotent: once [SH] has returned for a pointer, calling
    it again with that pointer changes neither the memory nor the solver. *)
Theorem SH_twice (m m' : Memory) (r : option loc) (s s' : Solver.t) :
  Solver.SH m r s = Ok (m', s') ->
  Solver.SH m' r s' = Ok (m', s').
Proof.
  unfold Solver.SH. destruct (decide (r = Solver.result_FF s)) as [Heq|Hne].
  - intros E. injection E as <- <-.
    destruct (decide (r = Solver.result_FF s)); [reflexivity | contradiction].
  - intros E. pose proof (populate_frame _ _ _ _ E) as (_ & _ & _ & Hr & _).
    cbn [Solver.set_result_FF Solver.result_FF] in Hr.
    destruct (decide (r = Solver.result_FF s')) as [_|Hne']; [reflexivity | congruence].
Qed.

(** In the indirect formulation a population does not look at the S and Q
    the solver holds. *)
Lemma populate_indirect_ignores_system (m : Memory) (s : Solver.t)
    (S0 : Matrix t_complex) (Q0 : Vector t_complex) :
  Solver.solverMethod s = O3DSolverIndirect ->
  Solver.populate m (Solver.set_system s S0 Q0) = Solver.populate m s.
Proof.
  intros Hmethod. unfold Solver.populate.
  cbn [Solver.set_system Solver.solverMethod Solver.geometry].
  rewrite Hmethod, Z.eqb_refl. unfold Solver.populateIndirect.
  cbn [Solver.set_system Solver.result_FF Solver.geometry Solver.incWave].
  destruct (Solver.result_FF s) as [r|].
  - destruct (local_source_vector _ _ _ _) as [[h' v]| |]; cbn [obind]; try reflexivity;
      destruct (preconditioned_scattering_matrix _ _); reflexivity.
  - destruct (source_vector _ _) as [v| |]; cbn [obind]; try reflexivity;
      destruct (preconditioned_scattering_matrix _ _); reflexivity.
Qed.

(** X12: in the indirect formulation [update] leaves exactly what
    constructing a new solver on the new geometry, excitation and degree
    leaves: nothing of the previous system or of a previous first-harmonic
    result survives. *)
Theorem indirect_update_is_construction (m : Memory) (geometry_ : Geometry)
    (incWave_ : Excitation) (nMax_ : nat) (s : Solver.t) :
  Solver.solverMethod s = O3DSolverIndirect ->
  Solver.update m geometry_ incWave_ nMax_ s
  = Solver.make m geometry_ incWave_ (Solver.solverMethod s) nMax_
                (Solver.context_is_valid s).
Proof.
  intros Hmethod. unfold Solver.update, Solver.make.
  rewrite <- (populate_indirect_ignores_system m
                {| Solver.geometry := geometry_; Solver.incWave := incWave_;
                   Solver.nMax := nMax_; Solver.result_FF := None;
                   Solver.solverMethod := Solver.solverMethod s;
                   Solver.context_is_valid := Solver.context_is_valid s;
                   Solver.S := alloc_matrix 0 0; Solver.Q := alloc_vector 0 |}
                (Solver.S s) (Solver.Q s)) by exact Hmethod.
  reflexivity.
Qed.

End Repetition.

(** ** The assembler of the indirect matrix on ranges of objects *)

Section Ranges.
Context `{Collaborators}.

(** One iteration of the loop over [iteri] at any offsets that leave room
    for a block. *)
Lemma psm_row_step_at (n nMax : nat) (objs : list Scatterer.t) (incWave : Excitation)
    (j : nat) (scj : Scatterer.t) (factor : Coeffs t_complex)
    (M : Matrix t_complex) (i : nat) (sci : Scatterer.t) (x y : nat) :
  objs !! i = Some sci ->
  TLocal_size scj = 2 * n ->
  x + 2 * n <= mrows M -> y + 2 * n <= mcols M ->
  exists M',
    psm_row n nMax objs incWave j scj factor y (M, x) i = Ok (M', x + 2 * n) /\
    mrows M' = mrows M /\ mcols M' = mcols M /\
    (forall R Cc, ~ (x <= R < x + 2 * n /\ y <= Cc < y + 2 * n) ->
                  mcoeff M' R Cc = mcoeff M R Cc) /\
    (forall r c, r < 2 * n -> c < 2 * n ->
       mcoeff M' (x + r) (y + c) =
       if i =? j then identity r c
       else mmul (2 * n)
              (T_AB_coeffs n (Coupling (vsub (Scatterer.vR sci) (Scatterer.vR scj))
                                       (waveK incWave) nMax)) factor r c).
Proof.
  intros Hi Hshape Hx Hy.
  unfold psm_row. cbn [fst snd].
  destruct (i =? j) eqn:Eij.
  - rewrite set_block_fits by lia. cbn [obind].
    eexists. split; [reflexivity|]. cbn [mrows mcols mcoeff].
    repeat split; try reflexivity.
    + intros R Cc Hout. now rewrite in_block_false by lia.
    + intros r c Hr Hc. rewrite in_block_true by lia. f_equal; lia.
  - rewrite (deref_lookup _ _ _ Hi). cbn [obind].
    rewrite set_block_fits by lia. cbn [obind].
    rewrite set_block_fits by (cbn [mrows mcols]; lia). cbn [obind mrows mcols].
    rewrite set_block_fits by (cbn [mrows mcols]; lia). cbn [obind mrows mcols].
    rewrite set_block_fits by (cbn [mrows mcols]; lia). cbn [obind mrows mcols].
    rewrite Hshape, Nat.eqb_refl.
    rewrite set_block_fits by (cbn [mrows mcols]; lia). cbn [obind mrows mcols].
    eexists. split; [reflexivity|]. cbn [mrows mcols mcoeff].
    repeat split; try reflexivity.
    + intros R Cc Hout. now decide_in_block.
    + intros r c Hr Hc. rewrite in_block_true by lia.
      replace (x + r - x) with r by lia. replace (y + c - y) with c by lia.
      unfold mmul. apply csum_ext. intros t Ht. f_equal.
      unfold get_block, T_AB_coeffs. cbn [mcoeff].
      destruct (Nat.ltb_spec r n), (Nat.ltb_spec t n); decide_in_block; f_equal; lia.
Qed.

(** One iteration of the loop over [iterj] for the rows of the objects
    [first .. first + Kr - 1], at any column offset that leaves room for a
    block. *)
Lemma psm_column_step_at (n nMax : nat) (objs : list Scatterer.t) (bground : ElectroMagnetic)
    (incWave : Excitation) (first Kr : nat) (M : Matrix t_complex) (y j : nat)
    (scj : Scatterer.t) :
  objs !! j = Some scj ->
  TLocal_size scj = 2 * n ->
  first + Kr <= length objs ->
  mrows M = 2 * n * Kr -> y + 2 * n <= mcols M ->
  exists M',
    psm_column n nMax objs bground incWave first (first + Kr) (M, y) j
      = Ok (M', y + 2 * n) /\
    mrows M' = mrows M /\ mcols M' = mcols M /\
    (forall R Cc, ~ (y <= Cc < y + 2 * n) -> mcoeff M' R Cc = mcoeff M R Cc) /\
    (forall a sci r c, a < Kr -> objs !! (first + a) = Some sci -> r < 2 * n -> c < 2 * n ->
       mcoeff M' (2 * n * a + r) (y + c) =
       if first + a =? j then identity r c
       else coupling_times_T n nMax bground incWave sci scj r c).
Proof.
  intros Hj Hshape Hlen Hrows Hcols.
  unfold psm_column. cbn [fst snd]. rewrite (deref_lookup _ _ _ Hj). cbn [obind].
  set (factor := mopp (scatterer_getTLocal scj (omega incWave) bground)).
  replace (first + Kr - first) with Kr by lia.
  pose (P := fun (k : nat) (st : Matrix t_complex * nat) =>
    st.2 = 2 * n * (k - first) /\ mrows st.1 = 2 * n * Kr /\ mcols st.1 = mcols M /\
    (forall R Cc, ~ (y <= Cc < y + 2 * n) -> mcoeff st.1 R Cc = mcoeff M R Cc) /\
    (forall a sci r c, first + a < k -> objs !! (first + a) = Some sci ->
       r < 2 * n -> c < 2 * n ->
       mcoeff st.1 (2 * n * a + r) (y + c) =
       if first + a =? j then identity r c
       else coupling_times_T n nMax bground incWave sci scj r c)).
  destruct (foldM_seq_total P (psm_row n nMax objs incWave j scj factor y)
              Kr first (M, 0)) as ([M' x'] & E & HP).
  - unfold P. cbn [fst snd]. repeat split; try assumption; try lia.
  - intros k [M0 x0] Hk (Hx0 & Hr0 & Hc0 & Hframe & Hdone). cbn [fst snd] in *. subst x0.
    assert (is_Some (objs !! k)) as [sck Hsck] by (apply lookup_lt_is_Some; lia).
    set (a0 := k - first) in *.
    assert (Hfit : 2 * n * a0 + 2 * n <= 2 * n * Kr).
    { replace (2 * n * a0 + 2 * n) with (2 * n * (a0 + 1)) by lia.
      apply Nat.mul_le_mono_l. subst a0. lia. }
    destruct (psm_row_step_at n nMax objs incWave j scj factor M0 k sck (2 * n * a0) y)
      as (M1 & E1 & Hr1 & Hc1 & Hframe1 & Hblock1); try assumption; try lia.
    exists (M1, 2 * n * a0 + 2 * n). split; [exact E1|].
    unfold P. cbn [fst snd]. repeat split; try congruence.
    + replace (k + 1 - first) with (a0 + 1) by (subst a0; lia). lia.
    + intros R Cc Hout. rewrite Hframe1 by lia. apply Hframe. exact Hout.
    + intros a sci r c Hlt Ha Hr Hc.
      destruct (decide (a = a0)) as [->|Hne].
      * replace (first + a0) with k in * by (subst a0; lia).
        rewrite Hblock1 by assumption.
        assert (sci = sck) by congruence. subst sci. reflexivity.
      * rewrite Hframe1.
        -- apply Hdone; try assumption. subst a0. lia.
        -- intros [[Hlo Hhi] _].
           assert (a < a0 \/ a0 < a) as [Hlt'|Hgt'] by lia.
           ++ assert (2 * n * (a + 1) <= 2 * n * a0) by (apply Nat.mul_le_mono_l; lia). lia.
           ++ assert (2 * n * (a0 + 1) <= 2 * n * a) by (apply Nat.mul_le_mono_l; lia). lia.
  - destruct HP as (Hx' & Hr' & Hc' & Hframe & Hdone). cbn [fst snd] in *.
    rewrite E. cbn [obind fst snd].
    exists M'. repeat split; try congruence.
    + exact Hframe.
    + intros a sci r c Ha Hi Hr Hc. apply Hdone; try assumption. lia.
Qed.

(** The matrix assembled for the rows of the objects [first .. first + Kr - 1]
    and the columns of the objects [second .. second + Kc - 1], when the
    column objects carry the degree of the first row object, so that their
    local operators have the size of a block. *)
Lemma psm_range_blocks (objs : list Scatterer.t) (sc0 : Scatterer.t)
    (first Kr second Kc : nat) (bground : ElectroMagnetic) (incWave : Excitation) :
  objs !! first = Some sc0 ->
  0 < Kr -> 0 < Kc ->
  first + Kr <= length objs -> second + Kc <= length objs ->
  (forall b scj, b < Kc -> objs !! (second + b) = Some scj ->
                 Scatterer.nMax scj = Scatterer.nMax sc0) ->
  let nMax := Scatterer.nMax sc0 in
  let n := max_flat nMax - 1 in
  exists M,
    preconditioned_scattering_matrix_range objs first (first + Kr) second (second + Kc)
                                           bground incWave = Ok M /\
    mrows M = 2 * n * Kr /\ mcols M = 2 * n * Kc /\
    (forall a b sci scj r c,
       a < Kr -> b < Kc ->
       objs !! (first + a) = Some sci -> objs !! (second + b) = Some scj ->
       r < 2 * n -> c < 2 * n ->
       mcoeff M (2 * n * a + r) (2 * n * b + c) =
       if first + a =? second + b then identity r c
       else coupling_times_T n nMax bground incWave sci scj r c).
Proof.
  intros Hfirst HKr HKc Hrows Hcols Hdegree nMax n.
  unfold preconditioned_scattering_matrix_range.
  rewrite (deref_lookup _ _ _ Hfirst). cbn [obind]. fold nMax n.
  destruct (Nat.eqb_spec first (first + Kr)) as [E0|_]; [lia|].
  destruct (Nat.eqb_spec second (second + Kc)) as [E0|_]; [lia|]. cbn [orb].
  replace (first + Kr - first) with Kr by lia.
  replace (second + Kc - second) with Kc by lia.
  pose (P := fun (k : nat) (st : Matrix t_complex * nat) =>
    st.2 = 2 * n * (k - second) /\ mrows st.1 = 2 * n * Kr /\ mcols st.1 = 2 * n * Kc /\
    (forall a b sci scj r c, a < Kr -> second + b < k ->
       objs !! (first + a) = Some sci -> objs !! (second + b) = Some scj ->
       r < 2 * n -> c < 2 * n ->
       mcoeff st.1 (2 * n * a + r) (2 * n * b + c) =
       if first + a =? second + b then identity r c
       else coupling_times_T n nMax bground incWave sci scj r c)).
  destruct (foldM_seq_total P (psm_column n nMax objs bground incWave first (first + Kr))
              Kc second (alloc_matrix (2 * n * Kr) (2 * n * Kc), 0)) as ([M' y'] & E & HP).
  - unfold P. cbn [fst snd alloc_matrix mrows mcols]. repeat split; try lia.
  - intros k [M0 y0] Hk (Hy0 & Hr0 & Hc0 & Hdone). cbn [fst snd] in *. subst y0.
    assert (is_Some (objs !! k)) as [sck Hsck] by (apply lookup_lt_is_Some; lia).
    set (b0 := k - second) in *.
    assert (Hfit : 2 * n * b0 + 2 * n <= 2 * n * Kc).
    { replace (2 * n * b0 + 2 * n) with (2 * n * (b0 + 1)) by lia.
      apply Nat.mul_le_mono_l. subst b0. lia. }
    assert (Hshape : TLocal_size sck = 2 * n).
    { unfold TLocal_size, n, nMax. rewrite (Hdegree b0 sck); [reflexivity | lia |].
      replace (second + b0) with k by (subst b0; lia). exact Hsck. }
    destruct (psm_column_step_at n nMax objs bground incWave first Kr M0 (2 * n * b0) k sck)
      as (M1 & E1 & Hr1 & Hc1 & Hframe1 & Hcol1); try assumption; try lia.
    exists (M1, 2 * n * b0 + 2 * n). split; [exact E1|].
    unfold P. cbn [fst snd]. repeat split; try congruence.
    + replace (k + 1 - second) with (b0 + 1) by (subst b0; lia). lia.
    + intros a b sci scj r c Ha Hlt Hi Hj Hr Hc.
      destruct (decide (b = b0)) as [->|Hne].
      * replace (second + b0) with k in * by (subst b0; lia).
        assert (scj = sck) by congruence. subst scj. apply Hcol1; assumption.
      * rewrite Hframe1.
        -- apply Hdone; try assumption. subst b0. lia.
        -- intros [Hlo Hhi].
           assert (b < b0 \/ b0 < b) as [Hlt'|Hgt'] by lia.
           ++ assert (2 * n * (b + 1) <= 2 * n * b0) by (apply Nat.mul_le_mono_l; lia). lia.
           ++ assert (2 * n * (b0 + 1) <= 2 * n * b) by (apply Nat.mul_le_mono_l; lia). lia.
  - destruct HP as (Hy' & Hr' & Hc' & Hdone). cbn [fst snd] in *.
    rewrite E. cbn [obind fst snd].
    exists M'. repeat split; try assumption.
    intros a b sci scj r c Ha Hb Hi Hj Hr Hc. apply Hdone; try assumption. lia.
Qed.

End Ranges.

(** ** The distributed assembler *)

Section DistributedPanels.
Context `{Collaborators}.

(** X13: the range assembler on the rows of the objects
    [first .. first + Kr - 1] and the columns of the objects
    [second .. second + Kc - 1], the column objects carrying the degree of
    the object at [first], returns a matrix of 2 n Kr rows and 2 n Kc
    columns, with n taken from that degree; its block (a, b) is the
    identity when row object and column object are the same object, and
    otherwise the coupling block of the two objects times minus the
    T-matrix of the column object. *)
Theorem range_assembly_blocks (objs : list Scatterer.t) (sc0 : Scatterer.t)
    (first Kr second Kc : nat) (bground : ElectroMagnetic) (incWave : Excitation) :
  objs !! first = Some sc0 ->
  0 < Kr -> 0 < Kc ->
  first + Kr <= length objs -> second + Kc <= length objs ->
  (forall b scj, b < Kc -> objs !! (second + b) = Some scj ->
                 Scatterer.nMax scj = Scatterer.nMax sc0) ->
  let nMax := Scatterer.nMax sc0 in
  let n := max_flat nMax - 1 in
  exists M,
    preconditioned_scattering_matrix_range objs first (first + Kr) second (second + Kc)
                                           bground incWave = Ok M /\
    mrows M = 2 * n * Kr /\ mcols M = 2 * n * Kc /\
    (forall a b sci scj r c,
       a < Kr -> b < Kc ->
       objs !! (first + a) = Some sci -> objs !! (second + b) = Some scj ->
       r < 2 * n -> c < 2 * n ->
       mcoeff M (2 * n * a + r) (2 * n * b + c) =
       if first + a =? second + b then identity r c
       else coupling_times_T n nMax bground incWave sci scj r c).
Proof. apply psm_range_blocks. Qed.

(** A panel of the columns of [Kc] objects from object [second] on, over
    all the rows, holds the columns of the matrix assembled over all the
    objects, all of which carry one degree. *)
Lemma column_panel_of_serial_matrix (objs : list Scatterer.t) (front : Scatterer.t)
    (second Kc : nat) (bground : ElectroMagnetic) (incWave : Excitation)
    (serial : Matrix t_complex) :
  objs !! 0 = Some front ->
  Forall (fun sc => Scatterer.nMax sc = Scatterer.nMax front) objs ->
  preconditioned_scattering_matrix_objects objs bground incWave = Ok serial ->
  0 < Kc -> second + Kc <= length objs ->
  let n := max_flat (Scatterer.nMax front) - 1 in
  let K := length objs in
  exists panel,
    preconditioned_scattering_matrix_range objs 0 K second (second + Kc) bground incWave
      = Ok panel /\
    mrows panel = mrows serial /\ mcols panel = 2 * n * Kc /\
    (forall R Cc, R < 2 * n * K -> Cc < 2 * n * Kc ->
       mcoeff panel R Cc = mcoeff serial R (2 * n * second + Cc)).
Proof.
  intros Hfront Hsame Eserial HKc Hfit n K.
  assert (HK : 0 < K) by (apply lookup_lt_Some in Hfront; exact Hfront).
  destruct (psm_range_blocks objs front 0 K second Kc bground incWave Hfront HK HKc)
    as (panel & Epanel & Hprows & Hpcols & Hpanel); [fold K; lia | exact Hfit | |].
  { intros b scj _ Hscj. rewrite Forall_lookup in Hsame. apply (Hsame _ _ Hscj). }
  destruct (psm_objects_blocks objs front bground incWave Hfront Hsame)
    as (serial' & Eserial' & Hsrows & Hscols & Hserial).
  rewrite Eserial in Eserial'. injection Eserial' as <-.
  cbn [Nat.add] in Epanel. fold n in Hprows, Hpcols, Hpanel, Hsrows, Hscols, Hserial.
  fold K in Hsrows, Hscols, Hserial.
  exists panel. repeat split; try assumption; try congruence.
  intros R Cc HR HC.
  destruct (Nat.eq_dec n 0) as [Hn|Hn]; [subst n; rewrite Hn in HR; simpl in HR; lia|].
  assert (Hw : 2 * n <> 0) by lia.
  pose proof (Nat.div_mod_eq R (2 * n)) as HRd.
  pose proof (Nat.div_mod_eq Cc (2 * n)) as HCd.
  pose proof (Nat.mod_upper_bound R (2 * n) Hw) as Hr.
  pose proof (Nat.mod_upper_bound Cc (2 * n) Hw) as Hc.
  assert (Ha : R / (2 * n) < K) by (apply Nat.Div0.div_lt_upper_bound; lia).
  assert (Hb : Cc / (2 * n) < Kc) by (apply Nat.Div0.div_lt_upper_bound; lia).
  set (a := R / (2 * n)) in *. set (r := R mod (2 * n)) in *.
  set (b := Cc / (2 * n)) in *. set (c := Cc mod (2 * n)) in *.
  assert (is_Some (objs !! a)) as [sci Hsci] by (apply lookup_lt_is_Some; fold K; lia).
  assert (is_Some (objs !! (second + b))) as [scj Hscj]
    by (apply lookup_lt_is_Some; fold K; lia).
  rewrite HRd, HCd.
  rewrite (Hpanel a b sci scj r c) by assumption.
  replace (2 * n * second + (2 * n * b + c)) with (2 * n * (second + b) + c) by lia.
  rewrite (Hserial a (second + b) sci scj r c) by assumption.
  reflexivity.
Qed.

(** The local work of a process of the linear context, for a geometry with
    a first object. *)
Lemma distributed_panels_nonempty (geometry : Geometry) (incWave : Excitation)
    (front : Scatterer.t) (context_size col : nat) :
  objects geometry !! 0 = Some front ->
  let nobj := length (objects geometry) in
  let size := linear_context_size context_size nobj in
  let n := max_flat (Scatterer.nMax front) - 1 in
  distributed_panels geometry incWave context_size col =
  if panel_assertions nobj n size col
  then
    panel <- preconditioned_scattering_matrix_range (objects geometry) 0 nobj
               (nloc nobj size * col) (nloc nobj size * (1 + col))
               (bground geometry) incWave ;;
    if (0 <? remainder nobj size) && (col <? remainder nobj size)
    then
      rpanel <- preconditioned_scattering_matrix_range (objects geometry) 0 nobj
                  (nloc nobj size * size + col) (nloc nobj size * size + col + 1)
                  (bground geometry) incWave ;;
      Ok (Some (panel, Some rpanel))
    else Ok (Some (panel, None))
  else Abort.
Proof.
  intros Hfront. unfold distributed_panels.
  destruct (objects geometry) as [|front' rest]; [discriminate|].
  injection Hfront as ->. reflexivity.
Qed.

(** What a process of the linear context assembles, against the matrix the
    serial assembler produces over all the objects. *)
Lemma distributed_panels_of_serial_matrix (geometry : Geometry) (incWave : Excitation)
    (front : Scatterer.t) (context_size col : nat) :
  let n := max_flat (Scatterer.nMax front) - 1 in
  let K := length (objects geometry) in
  let size := linear_context_size context_size K in
  objects geometry !! 0 = Some front ->
  Forall (fun sc => Scatterer.nMax sc = Scatterer.nMax front) (objects geometry) ->
  0 < Scatterer.nMax front ->
  0 < context_size -> col < size ->
  panel_assertions K n size col = true /\
  exists panel rpanel serial,
    distributed_panels geometry incWave context_size col = Ok (Some (panel, rpanel)) /\
    preconditioned_scattering_matrix_objects (objects geometry) (bground geometry) incWave
      = Ok serial /\
    mrows panel = mrows serial /\ mcols panel = 2 * n * nloc K size /\
    (forall R Cc, R < 2 * n * K -> Cc < 2 * n * nloc K size ->
       mcoeff panel R Cc = mcoeff serial R (2 * n * (nloc K size * col) + Cc)) /\
    match rpanel with
    | None => remainder K size <= col
    | Some rp =>
        col < remainder K size /\ nloc K size * size + col < K /\
        mrows rp = mrows serial /\ mcols rp = 2 * n /\
        (forall R Cc, R < 2 * n * K -> Cc < 2 * n ->
           mcoeff rp R Cc = mcoeff serial R (2 * n * (nloc K size * size + col) + Cc))
    end.
Proof.
  intros n K size Hfront Hsame Hdegree Hctx Hcol.
  assert (HK : 0 < K) by (apply lookup_lt_Some in Hfront; exact Hfront).
  assert (Hsize : 0 < size <= K) by (unfold size, linear_context_size; lia).
  assert (Hn : 0 < n) by (unfold n, max_flat; nia).
  assert (Hpos : 0 < nloc K size) by (apply Nat.div_str_pos; lia).
  assert (Hall : size * nloc K size <= K) by (apply Nat.Div0.mul_div_le).
  assert (Hhi : nloc K size * (1 + col) <= K).
  { transitivity (nloc K size * size); [apply Nat.mul_le_mono_l; lia | lia]. }
  assert (Hassert : panel_assertions K n size col = true).
  { unfold panel_assertions. rewrite !andb_true_iff. repeat split.
    - apply Nat.ltb_lt. lia.
    - apply Nat.leb_le. exact Hhi.
    - apply Nat.ltb_lt. nia. }
  split; [exact Hassert|].
  destruct (psm_objects_blocks (objects geometry) front (bground geometry) incWave
              Hfront Hsame) as (serial & Eserial & _).
  destruct (column_panel_of_serial_matrix (objects geometry) front (nloc K size * col)
              (nloc K size) (bground geometry) incWave serial Hfront Hsame Eserial Hpos)
    as (panel & Epanel & Hrows & Hcols & Hcoeff); [fold K; lia|].
  fold K n in Epanel, Hcols, Hcoeff.
  replace (nloc K size * col + nloc K size) with (nloc K size * (1 + col)) in Epanel by lia.
  rewrite (distributed_panels_nonempty geometry incWave front context_size col Hfront).
  fold K size n. rewrite Hassert, Epanel. cbn [obind].
  pose proof (Nat.div_mod_eq K size) as HKdiv. fold (nloc K size) in HKdiv.
  destruct (Nat.ltb_spec col (remainder K size)) as [Hin|Hout].
  - assert (Hrem : (0 <? remainder K size) = true) by (apply Nat.ltb_lt; lia).
    rewrite Hrem. cbn [andb].
    assert (Hlt : nloc K size * size + col < K) by (unfold remainder in Hin; lia).
    destruct (column_panel_of_serial_matrix (objects geometry) front
                (nloc K size * size + col) 1 (bground geometry) incWave serial
                Hfront Hsame Eserial)
      as (rp & Erp & Hrrows & Hrcols & Hrcoeff); [lia | fold K; lia |].
    fold K n in Erp, Hrcols, Hrcoeff. rewrite Erp. cbn [obind].
    exists panel, (Some rp), serial. repeat split; try assumption.
    + lia.
    + intros R Cc HR HC. apply Hrcoeff; lia.
  - rewrite andb_false_r.
    exists panel, None, serial. repeat split; assumption.
Qed.

(** X14: a process of the linear context, for one object or more, all of
    one degree other than zero, passes the three assertions on its range of
    objects, and the panel it assembles holds the columns of its [nloc]
    objects as the serial assembler over all the objects produces them; it
    assembles no remainder panel when its column is not below the
    remainder. *)
Theorem linear_panel_is_serial_columns (geometry : Geometry) (incWave : Excitation)
    (front : Scatterer.t) (context_size col : nat) :
  let n := max_flat (Scatterer.nMax front) - 1 in
  let K := length (objects geometry) in
  let size := linear_context_size context_size K in
  objects geometry !! 0 = Some front ->
  Forall (fun sc => Scatterer.nMax sc = Scatterer.nMax front) (objects geometry) ->
  0 < Scatterer.nMax front ->
  0 < context_size -> col < size ->
  panel_assertions K n size col = true /\
  exists panel rpanel serial,
    distributed_panels geometry incWave context_size col = Ok (Some (panel, rpanel)) /\
    preconditioned_scattering_matrix_objects (objects geometry) (bground geometry) incWave
      = Ok serial /\
    mrows panel = mrows serial /\ mcols panel = 2 * n * nloc K size /\
    (forall R Cc, R < 2 * n * K -> Cc < 2 * n * nloc K size ->
       mcoeff panel R Cc = mcoeff serial R (2 * n * (nloc K size * col) + Cc)) /\
    (remainder K size <= col -> rpanel = None).
Proof.
  intros n K size Hfront Hsame Hdegree Hctx Hcol.
  destruct (distributed_panels_of_serial_matrix geometry incWave front context_size col
              Hfront Hsame Hdegree Hctx Hcol)
    as (Hassert & panel & rpanel & serial & E & Es & Hrows & Hcols & Hcoeff & Hrem).
  fold n K size in Hassert, E, Hcols, Hcoeff, Hrem.
  split; [exact Hassert|]. exists panel, rpanel, serial. repeat split; try assumption.
  intros Hout. destruct rpanel as [rp|]; [|reflexivity].
  destruct Hrem as (Hin & _). lia.
Qed.

(** X15: when the number of objects is not a multiple of the number of
    processes, a process of the linear context whose column is below the
    remainder assembles, after its panel, the block column of one object
    beyond those of the linear context, as the serial assembler over all the
    objects, all of one degree other than zero, produces it. *)
Theorem remainder_panel_is_serial_column (geometry : Geometry) (incWave : Excitation)
    (front : Scatterer.t) (context_size col : nat) :
  let n := max_flat (Scatterer.nMax front) - 1 in
  let K := length (objects geometry) in
  let size := linear_context_size context_size K in
  objects geometry !! 0 = Some front ->
  Forall (fun sc => Scatterer.nMax sc = Scatterer.nMax front) (objects geometry) ->
  0 < Scatterer.nMax front ->
  0 < context_size -> col < remainder K size ->
  nloc K size * size + col < K /\
  exists panel rpanel serial,
    distributed_panels geometry incWave context_size col
      = Ok (Some (panel, Some rpanel)) /\
    preconditioned_scattering_matrix_objects (objects geometry) (bground geometry) incWave
      = Ok serial /\
    mrows rpanel = mrows serial /\ mcols rpanel = 2 * n /\
    (forall R Cc, R < 2 * n * K -> Cc < 2 * n ->
       mcoeff rpanel R Cc = mcoeff serial R (2 * n * (nloc K size * size + col) + Cc)).
Proof.
  intros n K size Hfront Hsame Hdegree Hctx Hcol.
  assert (HK : 0 < K) by (apply lookup_lt_Some in Hfront; exact Hfront).
  assert (Hsize : 0 < size) by (unfold size, linear_context_size; lia).
  assert (Hcol' : col < size).
  { pose proof (Nat.mod_upper_bound K size ltac:(lia)) as Hmod.
    unfold remainder in Hcol. lia. }
  destruct (distributed_panels_of_serial_matrix geometry incWave front context_size col
              Hfront Hsame Hdegree Hctx Hcol')
    as (_ & panel & rpanel & serial & E & Es & _ & _ & _ & Hrem).
  fold n K size in E, Hrem.
  destruct rpanel as [rp|]; [|lia].
  destruct Hrem as (_ & Hlt & Hrows & Hcols & Hcoeff).
  split; [exact Hlt|]. exists panel, rp, serial. repeat split; assumption.
Qed.

(** X16: the panels tile the objects: every object is in the panel of one
    process of the linear context or is the object of one process of the
    remainder context, never both, and in the panel of no second process. *)
Theorem panels_partition_the_objects (context_size nobj j : nat) :
  let size := linear_context_size context_size nobj in
  let nl := nloc nobj size in
  0 < context_size -> j < nobj ->
  ((exists col, col < size /\ nl * col <= j < nl * (1 + col)) \/
   (exists rcol, rcol < remainder nobj size /\ j = nl * size + rcol)) /\
  (forall col col', nl * col <= j < nl * (1 + col) ->
                    nl * col' <= j < nl * (1 + col') -> col = col') /\
  (forall col rcol, col < size -> nl * col <= j < nl * (1 + col) ->
                    j <> nl * size + rcol).
Proof.
  intros size nl Hctx Hj.
  assert (Hsize : 0 < size <= nobj) by (unfold size, linear_context_size; lia).
  assert (Hpos : 0 < nl) by (apply Nat.div_str_pos; lia).
  pose proof (Nat.div_mod_eq nobj size) as HK. fold (nloc nobj size) in HK. fold nl in HK.
  repeat split.
  - destruct (Nat.lt_ge_cases j (nl * size)) as [Hin|Hout].
    + left. exists (j / nl).
      pose proof (Nat.div_mod_eq j nl) as Hjd.
      pose proof (Nat.mod_upper_bound j nl ltac:(lia)) as Hjm.
      split; [apply Nat.Div0.div_lt_upper_bound; lia | lia].
    + right. exists (j - nl * size). unfold remainder. split; lia.
  - intros col col' [Hlo Hhi] [Hlo' Hhi'].
    assert (~ col < col') as Hn1.
    { intros Hlt. assert (nl * (1 + col) <= nl * col') by (apply Nat.mul_le_mono_l; lia). lia. }
    assert (~ col' < col) as Hn2.
    { intros Hlt. assert (nl * (1 + col') <= nl * col) by (apply Nat.mul_le_mono_l; lia). lia. }
    lia.
  - intros col rcol Hcol [Hlo Hhi] Heq.
    assert (nl * (1 + col) <= nl * size) by (apply Nat.mul_le_mono_l; lia). lia.
Qed.

End DistributedPanels.

(** ** The two formulations side by side *)

Section Formulations.
Context `{Collaborators}.

(** X17: populated from the same memory on the same geometry, excitation
    and first-harmonic pointer, with every scatterer at the degree of the
    direct solver, the two formulations leave the same sources in memory,
    and every block of the direct source vector is the local T-matrix of its
    scatterer applied to the same block of the indirect source vector. *)
Theorem direct_source_is_T_times_indirect_source (m mi md : Memory)
    (si sd si' sd' : Solver.t) :
  Solver.solverMethod si = O3DSolverIndirect ->
  Solver.solverMethod sd <> O3DSolverIndirect ->
  Solver.geometry sd = Solver.geometry si ->
  Solver.incWave sd = Solver.incWave si ->
  Solver.result_FF sd = Solver.result_FF si ->
  Forall (fun sc => Scatterer.nMax sc = Solver.nMax sd) (objects (Solver.geometry si)) ->
  Solver.populate m si = Ok (mi, si') ->
  Solver.populate m sd = Ok (md, sd') ->
  let n := 2 * (max_flat (Solver.nMax sd) - 1) in
  sources md = sources mi /\
  forall i sci t,
    objects (Solver.geometry si) !! i = Some sci -> t < n ->
    vcoeff (Solver.Q sd') (n * i + t) =
    mvmul n (getTLocal (Solver.geometry si) (omega (Solver.incWave si)) i (Solver.nMax sd))
          (fun u => vcoeff (Solver.Q si') (n * i + u)) t.
Proof.
  intros Hi Hd Hg He Hr Hsame Ei Ed n.
  assert (Hsources : sources md = sources mi).
  { pose proof (populate_sources _ _ _ _ Ei) as Si.
    pose proof (populate_sources _ _ _ _ Ed) as Sd.
    rewrite Hr, Hg, He in Sd.
    destruct (Solver.result_FF si) as [r|]; [|congruence].
    destruct (objects (Solver.geometry si)) as [|front rest]; [congruence|].
    rewrite Sd, Si.
    rewrite (population_degree_indirect si front Hi), (population_degree_direct sd front Hd).
    inversion Hsame as [|? ? Hfront _]. rewrite Hfront. reflexivity. }
  split; [exact Hsources|].
  intros i sci t Hsci Ht.
  assert (Hdeg : Scatterer.nMax sci = Solver.nMax sd)
    by (rewrite Forall_lookup in Hsame; apply (Hsame i sci Hsci)).
  pose proof (populate_Q _ _ _ _ Ed i sci t) as Qd.
  rewrite Hg, (population_degree_direct sd sci Hd) in Qd. fold n in Qd.
  rewrite Qd by assumption.
  unfold Q_block.
  destruct (Z.eqb_spec (Solver.solverMethod sd) O3DSolverIndirect) as [|_]; [contradiction|].
  rewrite (population_degree_direct sd sci Hd), Hg, He. fold n.
  unfold mvmul. apply csum_ext. intros u Hu. f_equal.
  pose proof (populate_Q _ _ _ _ Ei i sci u Hsci) as Qi.
  rewrite (population_degree_indirect si sci Hi), Hdeg in Qi. fold n in Qi.
  rewrite Qi by assumption.
  unfold Q_block. rewrite Hi, Z.eqb_refl.
  unfold incoming_block.
  rewrite (population_degree_indirect si sci Hi), (population_degree_direct sd sci Hd).
  rewrite Hr, Hg, He, Hsources, Hdeg. reflexivity.
Qed.

End Formulations.

(** ** The claims on the concrete configuration *)

#[local] Existing Instance Toy.types.
#[local] Existing Instance Toy.collaborators.

Example max_flat_1 : max_flat 1 = 4.
Proof. reflexivity. Qed.

Example scatterer_size_two_spheres : scatterer_size Toy.two_spheres = 12.
Proof. reflexivity. Qed.

(** Row 0 of block (0, 1) of the indirect matrix of the two spheres: the
    columns of the coupling scaled by minus the diagonal of the T-matrix. *)
Example toy_indirect_row :
  map (mcoeff Toy.indirect_matrix 0) (seq 6 6) = [-1; -2; -3; 20; 25; 30]%Z.
Proof. vm_compute. reflexivity. Qed.

(** The same row in the direct formulation: the row of the coupling scaled
    by minus the first diagonal entry of the T-matrix. *)
Example toy_direct_row :
  map (mcoeff (Solver.S (Toy.returned
                           (Solver.populate Toy.memory
                              (Toy.solver Toy.two_spheres 0%Z 1 None))).2) 0)
      (seq 6 6) = [-1; -1; -1; 5; 5; 5]%Z.
Proof. vm_compute. reflexivity. Qed.

Lemma toy_indirect_matrix :
  preconditioned_scattering_matrix Toy.two_spheres tt = Ok Toy.indirect_matrix.
Proof. apply is_Ok_from_Ok. vm_compute. reflexivity. Qed.

(** C1 does not hold with the product written as (-T_j) . C(i,j): for the
    two spheres, the coefficient in row 0 and column 1 of block (0, 1) of
    the indirect system matrix is -2, the coupling times minus the T-matrix
    of sphere 1, while minus the T-matrix of sphere 1 times the coupling has
    -1 there. *)
Lemma indirect_block_is_not_T_times_coupling :
  ~ (forall M i j sci scj r c,
       preconditioned_scattering_matrix Toy.two_spheres tt = Ok M ->
       objects Toy.two_spheres !! i = Some sci ->
       objects Toy.two_spheres !! j = Some scj ->
       i <> j -> r < 2 * 3 -> c < 2 * 3 ->
       mcoeff M (2 * 3 * i + r) (2 * 3 * j + c) =
       T_times_coupling 3 1 (bground Toy.two_spheres) tt sci scj r c).
Proof.
  intros Hclaim.
  specialize (Hclaim Toy.indirect_matrix 0 1 _ _ 0 1 toy_indirect_matrix eq_refl eq_refl).
  assert (Hne : 0 <> 1) by lia. assert (Hr : 0 < 2 * 3) by lia. assert (Hc : 1 < 2 * 3) by lia.
  specialize (Hclaim Hne Hr Hc). vm_compute in Hclaim. discriminate Hclaim.
Qed.

Lemma indirect_matrix_blocks_witness :
  Forall (fun sc => Scatterer.nMax sc = 1) (objects Toy.two_spheres) /\
  exists M,
    preconditioned_scattering_matrix Toy.two_spheres tt = Ok M /\
    mrows M = 2 * (max_flat 1 - 1) * 2 /\
    mcoeff M (2 * (max_flat 1 - 1) * 0 + 0) (2 * (max_flat 1 - 1) * 1 + 1) =
    coupling_times_T (max_flat 1 - 1) 1 tt tt (Toy.sphere 0 1 1) (Toy.sphere 5 1 2) 0 1.
Proof.
  assert (Hsame : Forall (fun sc => Scatterer.nMax sc = 1) (objects Toy.two_spheres))
    by (repeat constructor).
  split; [exact Hsame|].
  destruct (indirect_matrix_blocks Toy.two_spheres tt 1 Hsame) as (M & E & Hr & _ & Hblocks).
  exists M. split; [exact E|]. split; [exact Hr|].
  apply (Hblocks 0 1 (Toy.sphere 0 1 1) (Toy.sphere 5 1 2) 0 1); [reflexivity | reflexivity | | ];
    vm_compute; lia.
Defined.

Lemma toy_two_spheres_degree :
  Forall (fun sc => Scatterer.nMax sc = 1) (objects Toy.two_spheres).
Proof. repeat constructor. Qed.

Lemma toy_populate_returned (m : Memory) (s : Solver.t) :
  is_Ok (Solver.populate m s) = true ->
  Solver.populate m s
  = Ok ((Toy.returned (Solver.populate m s)).1, (Toy.returned (Solver.populate m s)).2).
Proof.
  destruct (Solver.populate m s) as [[m' s']| |]; [reflexivity | discriminate | discriminate].
Qed.

(** C2 on the code, at two spheres of degrees 1 and 2: the indirect
    population throws the configuration error, but the direct population
    makes no check: with a solver of degree 1 it returns a system of size
    12, and with a solver of degree 2 it runs into an access outside the
    source vector, sized from the first scatterer's degree; it never
    signals the configuration error.  The overload of the indirect
    assembler on the list of objects makes no check either, and fails on the
    product with a local operator of another size. *)
Theorem mixed_degrees_assembled_without_check :
  (exists i j sci scj,
      objects Toy.mixed_spheres !! i = Some sci /\ objects Toy.mixed_spheres !! j = Some scj /\
      Scatterer.nMax sci <> Scatterer.nMax scj) /\
  Solver.populate Toy.memory (Toy.solver Toy.mixed_spheres 1%Z 1 None)
    = Throw harmonics_error /\
  (exists m' s',
      Solver.populate Toy.memory (Toy.solver Toy.mixed_spheres 0%Z 1 None) = Ok (m', s') /\
      mrows (Solver.S s') = 12 /\ mcols (Solver.S s') = 12 /\ vsize (Solver.Q s') = 12) /\
  Solver.populate Toy.memory (Toy.solver Toy.mixed_spheres 0%Z 2 None) = Abort /\
  preconditioned_scattering_matrix_objects (objects Toy.mixed_spheres) tt tt = Abort.
Proof.
  split; [|split; [|split; [|split]]].
  - exists 0, 1, (Toy.sphere 0 1 1), (Toy.sphere 5 2 2). repeat split. discriminate.
  - vm_compute. reflexivity.
  - eexists _, _. split.
    + apply toy_populate_returned. vm_compute. reflexivity.
    + vm_compute. repeat split; reflexivity.
  - vm_compute. reflexivity.
  - vm_compute. reflexivity.
Qed.

Lemma no_scatterers_assembly_witness :
  source_vector Toy.no_spheres tt = Abort /\
  Solver.populate Toy.memory (Toy.solver Toy.no_spheres 1%Z 1 None) = Abort /\
  exists s',
    Solver.populate Toy.memory (Toy.solver Toy.no_spheres 0%Z 1 None) = Ok (Toy.memory, s') /\
    mrows (Solver.S s') = 0 /\ vsize (Solver.Q s') = 0.
Proof.
  destruct (no_scatterers_assembly Toy.memory (Toy.solver Toy.no_spheres 1%Z 1 None) eq_refl)
    as (_ & Hsv & _ & Hindirect & _).
  destruct (no_scatterers_assembly Toy.memory (Toy.solver Toy.no_spheres 0%Z 1 None) eq_refl)
    as (_ & _ & _ & _ & Hdirect).
  split; [exact Hsv|]. split; [apply Hindirect; reflexivity|].
  destruct Hdirect as (s' & E & Hr & _ & Hq); [discriminate|].
  exists s'. repeat split; assumption.
Defined.

Lemma sources_overwritten_witness :
  Solver.populate Toy.memory (Toy.second_harmonic_solver 1%Z) = Ok Toy.after_SH_population /\
  sources Toy.after_SH_population.1 !! 2%positive =
  Some (sourceCoefficients Toy.two_spheres tt (internal_coef Toy.first_harmonic) 1 1).
Proof.
  assert (Hreturned : Solver.populate Toy.memory (Toy.second_harmonic_solver 1%Z)
                      = Ok Toy.after_SH_population)
    by (apply is_Ok_from_Ok; vm_compute; reflexivity).
  assert (E : Solver.populate Toy.memory (Toy.second_harmonic_solver 1%Z)
              = Ok (Toy.after_SH_population.1, Toy.after_SH_population.2))
    by (rewrite Hreturned; destruct Toy.after_SH_population; reflexivity).
  split; [exact Hreturned|].
  destruct (sources_overwritten_only_by_SH_population _ _ _ _ E) as (_ & Hsources).
  apply (Hsources ltac:(compute_done) 1 (Toy.sphere 5 1 2) eq_refl).
Defined.

Lemma internal_coefficients_blockwise_witness :
  exists X_int,
    Solver.solveInternal (Toy.solver Toy.two_spheres 0%Z 1 None)
                         (internal_coef Toy.first_harmonic) = Ok X_int /\
    vsize X_int = 12 /\
    vcoeff X_int (1 * 6 + 2) = (Z.of_nat (1 + 2 + 2) * (10 * Z.of_nat 8))%Z.
Proof.
  destruct (internal_coefficients_blockwise (Toy.solver Toy.two_spheres 0%Z 1 None)
              (internal_coef Toy.first_harmonic)) as (X_int & E & Hsize & Hblocks).
  - vm_compute. lia.
  - exists X_int. split; [exact E|]. split; [exact Hsize|].
    apply (Hblocks 1 2); vm_compute; lia.
Defined.

Lemma SH_repopulates_witness :
  Solver.SH Toy.memory (Some 7%positive) (Toy.second_harmonic_solver 0%Z)
  = Ok (Toy.memory, Toy.second_harmonic_solver 0%Z) /\
  exists m' s',
    Solver.SH Toy.memory (Some 7%positive) (Toy.solver Toy.two_spheres 0%Z 1 None)
      = Ok (m', s') /\
    Solver.result_FF s' = Some 7%positive /\
    mcoeff (Solver.S s') (2 * 3 * 0 + 0) (2 * 3 * 1 + 1) = (-1)%Z /\
    vcoeff (Solver.Q s') (2 * 3 * 1 + 2) = 63%Z.
Proof.
  split.
  - destruct (SH_repopulates_on_new_pointer Toy.memory (Some 7%positive)
                (Toy.second_harmonic_solver 0%Z)) as (Hsame & _).
    apply Hsame. reflexivity.
  - destruct (SH_repopulates_on_new_pointer Toy.memory (Some 7%positive)
                (Toy.solver Toy.two_spheres 0%Z 1 None)) as (_ & Hnew).
    destruct Hnew as (_ & Hrebuilt); [discriminate|].
    destruct Hrebuilt as (m' & s' & E & Hres & _ & _ & _ & _ & Hblocks & Hsrc & HQ);
      [intros Hmethod; discriminate Hmethod | exact toy_two_spheres_degree |].
    exists m', s'. split; [exact E|]. split; [exact Hres|]. split.
    + etransitivity;
        [apply (Hblocks 0 1 (Toy.sphere 0 1 1) (Toy.sphere 5 1 2) 0 1);
           [reflexivity | reflexivity | vm_compute; lia | vm_compute; lia]
        | vm_compute; reflexivity].
    + etransitivity;
        [apply (HQ 1 (Toy.sphere 5 1 2) 2); [reflexivity | vm_compute; lia]|].
      cbv zeta. rewrite Hsrc. vm_compute. reflexivity.
Defined.

Lemma update_clears_second_harmonic_witness :
  Solver.update Toy.memory Toy.two_spheres tt 1 (Toy.second_harmonic_solver 0%Z)
  = Ok Toy.after_update /\
  Solver.result_FF Toy.after_update.2 = None /\
  Toy.after_update.1 = Toy.memory.
Proof.
  assert (Hreturned : Solver.update Toy.memory Toy.two_spheres tt 1
                        (Toy.second_harmonic_solver 0%Z) = Ok Toy.after_update)
    by (apply is_Ok_from_Ok; vm_compute; reflexivity).
  assert (E : Solver.update Toy.memory Toy.two_spheres tt 1 (Toy.second_harmonic_solver 0%Z)
              = Ok (Toy.after_update.1, Toy.after_update.2))
    by (rewrite Hreturned; destruct Toy.after_update; reflexivity).
  split; [exact Hreturned|].
  destruct (update_clears_second_harmonic _ _ _ _ _ _ _ E) as (Hr & Hm & _).
  split; assumption.
Defined.

(** ** The further properties on the concrete configuration *)


Lemma direct_matrix_blocks_witness :
  exists m' s',
    Solver.populate Toy.memory (Toy.solver Toy.two_spheres 0%Z 1 None) = Ok (m', s') /\
    mrows (Solver.S s') = 12 /\
    mcoeff (Solver.S s') (0 * 2 * 3 + 0) (1 * 2 * 3 + 1) =
    T_times_T_AB 3 1 Toy.two_spheres tt 0 (Toy.sphere 0 1 1) (Toy.sphere 5 1 2) 0 1.
Proof.
  destruct (direct_matrix_blocks Toy.memory (Toy.solver Toy.two_spheres 0%Z 1 None))
    as (m' & s' & E & Hr & _ & _ & Hblocks).
  - vm_compute. discriminate.
  - exact toy_two_spheres_degree.
  - exists m', s'. split; [exact E|]. split; [exact Hr|].
    apply (Hblocks 0 1 (Toy.sphere 0 1 1) (Toy.sphere 5 1 2) 0 1);
      [reflexivity | reflexivity | | ]; vm_compute; lia.
Defined.

Lemma indirect_population_outcome_witness :
  (exists ms, Solver.populate Toy.memory (Toy.solver Toy.two_spheres 1%Z 3 None) = Ok ms) /\
  Solver.populate Toy.memory (Toy.solver Toy.no_spheres 1%Z 3 None) = Abort.
Proof.
  split.
  - destruct (indirect_population_outcome Toy.memory (Toy.solver Toy.two_spheres 1%Z 3 None))
      as [[_ Hreturns] _]; [reflexivity|].
    apply Hreturns. split; [discriminate|]. exists 1. exact toy_two_spheres_degree.
  - destruct (indirect_population_outcome Toy.memory (Toy.solver Toy.no_spheres 1%Z 3 None))
      as (_ & Hempty & _); [reflexivity|].
    apply Hempty. reflexivity.
Defined.

Lemma source_vector_incoming_blocks_witness :
  exists v,
    source_vector Toy.two_spheres tt = Ok v /\ vsize v = 12 /\
    vcoeff v (2 * 3 * 1 + 2) = 8%Z.
Proof.
  destruct (source_vector_incoming_blocks Toy.two_spheres tt 1) as (_ & Hblocks).
  destruct Hblocks as (v & E & Hsize & Hblocks);
    [discriminate | exact toy_two_spheres_degree |].
  exists v. split; [exact E|]. split; [exact Hsize|].
  apply (Hblocks 1 (Toy.sphere 5 1 2) 2); [reflexivity | vm_compute; lia].
Defined.

Lemma local_source_vector_source_blocks_witness :
  exists v,
    local_source_vector (sources Toy.memory) Toy.two_spheres tt
                        (internal_coef Toy.first_harmonic)
      = Ok (setSourcesSingle Toy.two_spheres tt (internal_coef Toy.first_harmonic) 1
                             (sources Toy.memory), v) /\
    vcoeff v (2 * 3 * 1 + 2) = 21%Z.
Proof.
  destruct (local_source_vector_source_blocks (sources Toy.memory) Toy.two_spheres tt
              (internal_coef Toy.first_harmonic) 1) as (_ & Hblocks).
  destruct Hblocks as (v & E & _ & Hblocks);
    [discriminate | exact toy_two_spheres_degree |].
  exists v. split; [exact E|].
  etransitivity; [apply (Hblocks 1 2); vm_compute; lia | vm_compute; reflexivity].
Defined.

Lemma convertIndirect_blocks_witness :
  exists R,
    Solver.convertIndirect (Toy.solver Toy.two_spheres 1%Z 1 None)
                           (internal_coef Toy.first_harmonic) = Ok R /\
    vsize R = 12 /\
    vcoeff R (1 * 6 + 2) = (3 * 80)%Z.
Proof.
  destruct (convertIndirect_blocks (Toy.solver Toy.two_spheres 1%Z 1 None)
              (internal_coef Toy.first_harmonic)) as (R & E & Hsize & Hblocks).
  - vm_compute. lia.
  - exists R. split; [exact E|]. split; [exact Hsize|].
    etransitivity; [apply (Hblocks 1 2); vm_compute; lia | vm_compute; reflexivity].
Defined.

Lemma short_vector_is_out_of_bounds_witness :
  Solver.convertIndirect (Toy.solver Toy.two_spheres 1%Z 1 None) ToyRuns.short_vector = Abort /\
  Solver.solveInternal (Toy.solver Toy.two_spheres 1%Z 1 None) ToyRuns.short_vector = Abort.
Proof.
  apply (short_vector_is_out_of_bounds (Toy.solver Toy.two_spheres 1%Z 1 None)
           ToyRuns.short_vector).
  vm_compute. lia.
Defined.



Lemma SH_twice_witness :
  Solver.SH Toy.after_SH_population.1 (Some 7%positive) Toy.after_SH_population.2
  = Ok (Toy.after_SH_population.1, Toy.after_SH_population.2).
Proof.
  apply (SH_twice Toy.memory _ (Some 7%positive) (Toy.solver Toy.two_spheres 1%Z 1 None)).
  change (Solver.populate Toy.memory (Toy.second_harmonic_solver 1%Z)
          = Ok (Toy.after_SH_population.1, Toy.after_SH_population.2)).
  apply toy_populate_returned. vm_compute. reflexivity.
Defined.

Lemma indirect_update_is_construction_witness :
  Solver.update Toy.memory Toy.two_spheres tt 1 (Toy.second_harmonic_solver 1%Z)
  = Solver.make Toy.memory Toy.two_spheres tt 1%Z 1 true.
Proof.
  apply (indirect_update_is_construction Toy.memory Toy.two_spheres tt 1
           (Toy.second_harmonic_solver 1%Z)).
  reflexivity.
Defined.

Lemma range_assembly_blocks_witness :
  exists M,
    preconditioned_scattering_matrix_range (objects Toy.two_spheres) 0 (0 + 2) 1 (1 + 1) tt tt
      = Ok M /\
    mrows M = 12 /\ mcols M = 6 /\
    mcoeff M (2 * 3 * 0 + 0) (2 * 3 * 0 + 1) =
    coupling_times_T 3 1 tt tt (Toy.sphere 0 1 1) (Toy.sphere 5 1 2) 0 1.
Proof.
  destruct (range_assembly_blocks (objects Toy.two_spheres) (Toy.sphere 0 1 1) 0 2 1 1 tt tt)
    as (M & E & Hr & Hc & Hblocks);
    [reflexivity | lia | lia | vm_compute; lia | vm_compute; lia | |].
  { intros b scj Hb Hscj. assert (b = 0) by lia. subst b.
    injection Hscj as <-. reflexivity. }
  exists M. split; [exact E|]. split; [exact Hr|]. split; [exact Hc|].
  apply (Hblocks 0 0 (Toy.sphere 0 1 1) (Toy.sphere 5 1 2) 0 1);
    [lia | lia | reflexivity | reflexivity | | ]; vm_compute; lia.
Defined.

Lemma toy_three_spheres_degree :
  Forall (fun sc => Scatterer.nMax sc = Scatterer.nMax (Toy.sphere 0 1 1))
         (objects ToyRuns.three_spheres).
Proof. repeat constructor. Qed.

Lemma linear_panel_is_serial_columns_witness :
  exists panel rpanel serial,
    distributed_panels ToyRuns.three_spheres tt 2 1 = Ok (Some (panel, rpanel)) /\
    rpanel = None /\
    preconditioned_scattering_matrix_objects (objects ToyRuns.three_spheres) tt tt
      = Ok serial /\
    mcols panel = 6 /\
    mcoeff panel 0 1 = mcoeff serial 0 (6 + 1).
Proof.
  destruct (linear_panel_is_serial_columns ToyRuns.three_spheres tt (Toy.sphere 0 1 1) 2 1)
    as (_ & panel & rpanel & serial & Ep & Es & _ & Hc & Hcoeff & Hnone);
    [reflexivity | exact toy_three_spheres_degree | vm_compute; lia | lia
    | vm_compute; lia |].
  exists panel, rpanel, serial. split; [exact Ep|].
  split; [apply Hnone; vm_compute; lia|]. split; [exact Es|]. split; [exact Hc|].
  apply (Hcoeff 0 1); vm_compute; lia.
Defined.

Lemma remainder_panel_is_serial_column_witness :
  exists panel rpanel serial,
    distributed_panels ToyRuns.three_spheres tt 2 0 = Ok (Some (panel, Some rpanel)) /\
    preconditioned_scattering_matrix_objects (objects ToyRuns.three_spheres) tt tt
      = Ok serial /\
    mcols rpanel = 6 /\
    mcoeff rpanel 0 1 = mcoeff serial 0 (12 + 1).
Proof.
  destruct (remainder_panel_is_serial_column ToyRuns.three_spheres tt (Toy.sphere 0 1 1) 2 0)
    as (_ & panel & rpanel & serial & Ep & Es & _ & Hc & Hcoeff);
    [reflexivity | exact toy_three_spheres_degree | vm_compute; lia | lia
    | vm_compute; lia |].
  exists panel, rpanel, serial. split; [exact Ep|]. split; [exact Es|]. split; [exact Hc|].
  apply (Hcoeff 0 1); vm_compute; lia.
Defined.

Lemma panels_partition_the_objects_witness :
  (exists col, col < 2 /\ nloc 3 2 * col <= 1 < nloc 3 2 * (1 + col)) \/
  (exists rcol, rcol < remainder 3 2 /\ 1 = nloc 3 2 * 2 + rcol).
Proof.
  destruct (panels_partition_the_objects 2 3 1) as (Hin & _); [lia | lia |].
  exact Hin.
Defined.

Lemma direct_source_is_T_times_indirect_source_witness :
  vcoeff (Solver.Q (ToyRuns.after_population 0%Z).2) (6 * 1 + 2) =
  mvmul 6 (getTLocal Toy.two_spheres tt 1 1)
        (fun u => vcoeff (Solver.Q (ToyRuns.after_population 1%Z).2) (6 * 1 + u)) 2.
Proof.
  assert (Ei : Solver.populate Toy.memory (Toy.solver Toy.two_spheres 1%Z 1 None)
               = Ok ((ToyRuns.after_population 1%Z).1, (ToyRuns.after_population 1%Z).2))
    by (apply toy_populate_returned; vm_compute; reflexivity).
  assert (Ed : Solver.populate Toy.memory (Toy.solver Toy.two_spheres 0%Z 1 None)
               = Ok ((ToyRuns.after_population 0%Z).1, (ToyRuns.after_population 0%Z).2))
    by (apply toy_populate_returned; vm_compute; reflexivity).
  destruct (direct_source_is_T_times_indirect_source
              Toy.memory (ToyRuns.after_population 1%Z).1 (ToyRuns.after_population 0%Z).1
              (Toy.solver Toy.two_spheres 1%Z 1 None) (Toy.solver Toy.two_spheres 0%Z 1 None)
              (ToyRuns.after_population 1%Z).2 (ToyRuns.after_population 0%Z).2)
    as (_ & Hblocks);
    [reflexivity | discriminate | reflexivity | reflexivity | reflexivity
    | exact toy_two_spheres_degree | exact Ei | exact Ed |].
  apply (Hblocks 1 (Toy.sphere 5 1 2) 2); [reflexivity | vm_compute; lia].
Defined.
